(** * A Streamlit form over one SQLite table: model and verification

    The program is [app.py]: six data-access functions, each running one
    SQL statement on a connection of its own, and a [main] script that the
    host framework executes once per user interaction.

    The development has three layers, as the program has:
    - the storage engine: the [entries] table and the six statements;
    - the driver: connections, the binding of parameters, implicit
      transactions, commit and rollback, the [with] block of a connection,
      the DataFrame that pandas makes of a listing, and the data-access
      functions built on them;
    - the script: the widgets, the three forms and [main]. *)

From stdpp Require Import base option strings list gmap sorting pretty.

Local Open Scope Z_scope.

(** ** Storage: rows, the table, the database file *)

(** CURRENT_TIMESTAMP is text, "YYYY-MM-DD HH:MM:SS". *)
Definition timestamp := string.

(** One row of [entries], in column order: the tuple [(id, name, age, email,
    created_at)] of [get_entry_by_id].  [name] is TEXT NOT NULL; the other
    three data columns are nullable. *)
Record row := Row {
  col_id : Z;
  col_name : string;
  col_age : option Z;
  col_email : option string;
  col_created_at : option timestamp
}.

Global Instance row_eq_dec : EqDecision row.
Proof. solve_decision. Defined.

(** A table declared INTEGER PRIMARY KEY AUTOINCREMENT: its rows, and its
    entry in [sqlite_sequence], the largest rowid handed out so far. *)
Record table := Table {
  rows : list row;
  seq : Z
}.

Global Instance table_eq_dec : EqDecision table.
Proof. solve_decision. Defined.

(** The database file [data.db]: its tables by name. *)
Abbreviation database := (gmap string table).

Definition ENTRIES : string := "entries".

(** The largest rowid the engine can store. *)
Definition MAX_ROWID : Z := 2 ^ 63 - 1.

Inductive exn :=
  | NoSuchTable (tbl : string)   (* OperationalError: no such table *)
  | DatabaseFull                 (* OperationalError: database or disk is full *)
  | OverflowError                (* Python int too large to convert to SQLite INTEGER *)
  | DatabaseError (cause : exn)  (* pandas.errors.DatabaseError: Execution failed on sql *)
  | ClosedConnection             (* ProgrammingError: closed database *)
  | AttributeError               (* the host has no experimental_rerun *)
  | StreamlitAPIException        (* a widget's value is outside its bounds *)
  | RerunException.              (* the host stops the script and runs it again *)

Global Instance exn_eq_dec : EqDecision exn.
Proof. solve_decision. Defined.

(** ** The six statements *)

Inductive statement :=
  | CreateTableIfNotExists
      (* CREATE TABLE IF NOT EXISTS entries (id INTEGER PRIMARY KEY
         AUTOINCREMENT, name TEXT NOT NULL, age INTEGER, email TEXT,
         created_at TIMESTAMP DEFAULT CURRENT_TIMESTAMP) *)
  | InsertInto (name : string) (age : option Z) (email : string)
      (* INSERT INTO entries (name, age, email) VALUES (?, ?, ?) *)
  | SelectAll
      (* SELECT * FROM entries ORDER BY id DESC *)
  | SelectWhereId (entry_id : Z)
      (* SELECT * FROM entries WHERE id = ? *)
  | UpdateWhereId (entry_id : Z) (name : string) (age : option Z) (email : string)
      (* UPDATE entries SET name = ?, age = ?, email = ? WHERE id = ? *)
  | DeleteWhereId (entry_id : option Z).
      (* DELETE FROM entries WHERE id = ?   (the parameter may be None) *)

Global Instance statement_eq_dec : EqDecision statement.
Proof. solve_decision. Defined.

(** INSERT, UPDATE and DELETE: the statements that write rows, and that
    open a transaction in the driver. *)
Definition is_dml (s : statement) : bool :=
  match s with
  | InsertInto _ _ _ | UpdateWhereId _ _ _ _ | DeleteWhereId _ => true
  | CreateTableIfNotExists | SelectAll | SelectWhereId _ => false
  end.

(** SQLite's INTEGER is a signed 64-bit integer; Python's [int] has no
    bound.  The driver refuses to bind an [int] outside the 64 bits. *)
Definition is_int64 (x : Z) : bool := bool_decide (- 2 ^ 63 ≤ x < 2 ^ 63).

(** Every integer among the parameters of the statement can be bound. *)
Definition bindable (s : statement) : bool :=
  match s with
  | InsertInto _ age _ => from_option is_int64 true age
  | SelectWhereId entry_id => is_int64 entry_id
  | UpdateWhereId entry_id _ age _ =>
      is_int64 entry_id && from_option is_int64 true age
  | DeleteWhereId entry_id => from_option is_int64 true entry_id
  | CreateTableIfNotExists | SelectAll => true
  end.

(** What a cursor holds after [execute]. *)
Record cursor := Cursor {
  lastrowid : option Z;
  fetched : list row
}.

Definition empty_table : table := Table [] 0.

(** The largest rowid now in the table, if it has a row. *)
Definition max_rowid (rs : list row) : option Z :=
  foldr (λ r acc, match acc with
                  | None => Some (col_id r)
                  | Some m => Some (Z.max (col_id r) m)
                  end) None rs.

(** The rowid of the next inserted row, for an AUTOINCREMENT table: one more
    than the largest rowid in the table, and never below one more than
    [seq]; none is left once the largest rowid has been used. *)
Definition new_rowid (t : table) : option Z :=
  if decide (seq t = MAX_ROWID) then None
  else match max_rowid (rows t) with
       | None => Some (Z.max 1 (seq t + 1))
       | Some m =>
           if decide (m = MAX_ROWID) then None
           else Some (Z.max (m + 1) (seq t + 1))
       end.

(** INSERT: [id] and [created_at] are not in the column list; the engine
    fills them with the next rowid and with CURRENT_TIMESTAMP. *)
Definition insert_row (now : timestamp) (name : string) (age : option Z)
    (email : string) (t : table) : exn + table * cursor :=
  match new_rowid t with
  | None => inl DatabaseFull
  | Some i =>
      inr (Table (rows t ++ [Row i name age (Some email) (Some now)]) i,
           Cursor (Some i) [])
  end.

Definition order_by_id_desc (r1 r2 : row) : Prop := col_id r2 ≤ col_id r1.

Global Instance order_by_id_desc_dec r1 r2 : Decision (order_by_id_desc r1 r2).
Proof. unfold order_by_id_desc. apply _. Defined.

(** SELECT * ... ORDER BY id DESC *)
Definition select_all (t : table) : list row :=
  merge_sort order_by_id_desc (rows t).

(** SELECT * ... WHERE id = ? *)
Definition select_where_id (entry_id : Z) (t : table) : list row :=
  filter (λ r, col_id r = entry_id) (rows t).

(** UPDATE ... SET name = ?, age = ?, email = ?: the SET list names three
    columns; the other two keep their value. *)
Definition set_fields (name : string) (age : option Z) (email : string)
    (r : row) : row :=
  Row (col_id r) name age (Some email) (col_created_at r).

Definition update_rows (entry_id : Z) (name : string) (age : option Z)
    (email : string) (rs : list row) : list row :=
  (λ r, if decide (col_id r = entry_id) then set_fields name age email r else r)
    <$> rs.

(** DELETE ... WHERE id = ?: with the parameter NULL the comparison holds
    for no row. *)
Definition delete_rows (entry_id : option Z) (rs : list row) : list row :=
  filter (λ r, Some (col_id r) ≠ entry_id) rs.

(** A statement on the [entries] table itself. *)
Definition exec_on (now : timestamp) (s : statement) (t : table)
    : exn + table * cursor :=
  match s with
  | CreateTableIfNotExists => inr (t, Cursor None [])
  | InsertInto name age email => insert_row now name age email t
  | SelectAll => inr (t, Cursor None (select_all t))
  | SelectWhereId entry_id => inr (t, Cursor None (select_where_id entry_id t))
  | UpdateWhereId entry_id name age email =>
      inr (Table (update_rows entry_id name age email (rows t)) (seq t),
           Cursor None [])
  | DeleteWhereId entry_id =>
      inr (Table (delete_rows entry_id (rows t)) (seq t), Cursor None [])
  end.

(** One statement on a database, at engine time [now]: the database it
    leaves and the cursor, or the error it raises.  Only CREATE TABLE IF NOT
    EXISTS runs without the table. *)
Definition exec (now : timestamp) (s : statement) (db : gmap string table)
    : exn + gmap string table * cursor :=
  match db !! ENTRIES with
  | None =>
      match s with
      | CreateTableIfNotExists =>
          inr (<[ENTRIES := empty_table]> db, Cursor None [])
      | _ => inl (NoSuchTable ENTRIES)
      end
  | Some t =>
      match exec_on now s t with
      | inl e => inl e
      | inr (t', c) => inr (<[ENTRIES := t']> db, c)
      end
  end.

Global Arguments exec : simpl never.

(** ** The driver: connections and transactions *)

(** A connection is known by a handle.  While it has a transaction open it
    holds the database as its statements have left it; [commit] writes that
    to the file. *)
Inductive event :=
  | Connect (h : nat)
  | Execute (h : nat) (s : statement)
  | Commit (h : nat)
  | Rollback (h : nat).

Global Instance event_eq_dec : EqDecision event.
Proof. solve_decision. Defined.

Inductive message :=
  | StError (text : string)
  | StSuccess (text : string)
  | StInfo (text : string)
  | StDataframe (df : list row).

Global Instance message_eq_dec : EqDecision message.
Proof. solve_decision. Defined.

Record world := World {
  disk : gmap string table;                    (* data.db, as committed *)
  clock : timestamp;                           (* the engine's current time *)
  conns : gmap nat (option (gmap string table));
    (* the connections opened and not closed, each with the database of its
       open transaction, if it has one *)
  trace : list event;                          (* driver calls, oldest first *)
  screen : list message;                       (* what the script has shown *)
  session_state : gmap string bool;
  has_experimental_rerun : bool                (* fixed by the host's version *)
}.

Definition M (A : Type) : Type := world → (exn + A) * world.

Definition ret {A} (a : A) : M A := λ w, (inr a, w).

Definition bind {A B} (m : M A) (k : A → M B) : M B := λ w,
  match m w with
  | (inr a, w') => k a w'
  | (inl e, w') => (inl e, w')
  end.

Definition raise {A} (e : exn) : M A := λ w, (inl e, w).

Global Instance M_ret : MRet M := @ret.
Global Instance M_bind : MBind M := λ A B k m, bind m k.

Definition set_disk (d : gmap string table) (w : world) : world :=
  World d (clock w) (conns w) (trace w) (screen w) (session_state w)
        (has_experimental_rerun w).
Definition set_clock (c : timestamp) (w : world) : world :=
  World (disk w) c (conns w) (trace w) (screen w) (session_state w)
        (has_experimental_rerun w).
Definition set_conn (h : nat) (p : option (gmap string table)) (w : world)
    : world :=
  World (disk w) (clock w) (<[h := p]> (conns w)) (trace w) (screen w)
        (session_state w)
        (has_experimental_rerun w).
Definition log (ev : event) (w : world) : world :=
  World (disk w) (clock w) (conns w) (trace w ++ [ev]) (screen w)
        (session_state w)
        (has_experimental_rerun w).
Definition show (m : message) (w : world) : world :=
  World (disk w) (clock w) (conns w) (trace w) (screen w ++ [m])
        (session_state w)
        (has_experimental_rerun w).
Definition set_session (k : string) (b : bool) (w : world) : world :=
  World (disk w) (clock w) (conns w) (trace w) (screen w)
        (<[k := b]> (session_state w)) (has_experimental_rerun w).

(** [sqlite3.connect(DB_PATH)]: a new connection, no transaction open. *)
Definition connect : M nat := λ w,
  let h := fresh (dom (conns w)) in
  (inr h, set_conn h None (log (Connect h) w)).

(** The statement compiles: every statement but CREATE TABLE IF NOT EXISTS
    names the table, which has to be there. *)
Definition prepared (s : statement) (db : gmap string table) : bool :=
  match s with
  | CreateTableIfNotExists => true
  | _ => bool_decide (is_Some (db !! ENTRIES))
  end.

(** [cur.execute(sql, params)] on a cursor of connection [h], in the
    driver's order: the statement is compiled; INSERT, UPDATE and DELETE
    open a transaction if none is open; the parameters are bound, and an
    [int] outside 64 bits raises [OverflowError]; the statement runs.
    Outside a transaction a statement takes effect on the file at once. *)
Definition execute (h : nat) (s : statement) : M cursor := λ w,
  let w := log (Execute h s) w in
  match conns w !! h with
  | None => (inl ClosedConnection, w)
  | Some pending =>
      let db := default (disk w) pending in
      if negb (prepared s db) then (inl (NoSuchTable ENTRIES), w)
      else
        let in_transaction := is_dml s || bool_decide (is_Some pending) in
        let w := if in_transaction then set_conn h (Some db) w else w in
        if negb (bindable s) then (inl OverflowError, w)
        else
          match exec (clock w) s db with
          | inl e => (inl e, w)
          | inr (db', c) =>
              if in_transaction then (inr c, set_conn h (Some db') w)
              else (inr c, set_disk db' w)
          end
  end.

(** [conn.commit()] *)
Definition commit (h : nat) : M unit := λ w,
  let w := log (Commit h) w in
  match conns w !! h with
  | None => (inl ClosedConnection, w)
  | Some None => (inr tt, w)
  | Some (Some db') => (inr tt, set_conn h None (set_disk db' w))
  end.

(** [conn.rollback()] *)
Definition rollback (h : nat) : M unit := λ w,
  let w := log (Rollback h) w in
  match conns w !! h with
  | None => (inl ClosedConnection, w)
  | Some _ => (inr tt, set_conn h None w)
  end.

(** [with conn: body]: a connection used as a context manager commits when
    the body ends normally and rolls back when it raises.  It does nothing
    else on exit. *)
Definition with_ {A} (conn : nat) (body : M A) : M A := λ w,
  match body w with
  | (inr a, w') =>
      match commit conn w' with
      | (inr _, w'') => (inr a, w'')
      | (inl e, w'') => (inl e, w'')
      end
  | (inl e, w') => (inl e, (rollback conn w').2)
  end.

(** [try: body except Exception: handler].  [RerunException] derives from
    [BaseException] only, so that the handler lets it through. *)
Definition is_Exception (e : exn) : bool :=
  match e with RerunException => false | _ => true end.

Definition try_except {A} (body handler : M A) : M A := λ w,
  match body w with
  | (inl e, w') => if is_Exception e then handler w' else (inl e, w')
  | r => r
  end.

(** [try: body except Exception as exc: handler(exc)] *)
Definition try_except_as {A} (body : M A) (handler : exn → M A) : M A := λ w,
  match body w with
  | (inl e, w') => if is_Exception e then handler e w' else (inl e, w')
  | r => r
  end.

(** ** The listing as a DataFrame *)

(** The double nearest to an integer, ties to the even significand: every
    integer up to 2^53 in size is a double; beyond, 53 bits are kept. *)
Definition float64 (x : Z) : Z :=
  let a := Z.abs x in
  if bool_decide (a ≤ 2 ^ 53) then x
  else
    let e := Z.log2 a - 52 in
    let q := a / 2 ^ e in
    let r := a mod 2 ^ e in
    let half := 2 ^ (e - 1) in
    let q' := if bool_decide (half < r ∨ (r = half ∧ Z.odd q = true))
              then q + 1 else q in
    Z.sgn x * (q' * 2 ^ e).

(** The rows as the DataFrame holds them.  A column of integers is int64,
    and exact; with a NULL among them the column is float64, the NULL is
    NaN and each integer is the nearest double.  Only [age] can be NULL
    among the integer columns.  The text columns hold their values as they
    are.  A NaN is written [None] here, and a double by its value. *)
Definition as_float64 (r : row) : row :=
  Row (col_id r) (col_name r) (float64 <$> col_age r) (col_email r)
      (col_created_at r).

Definition frame (rs : list row) : list row :=
  if bool_decide (None ∈ col_age <$> rs) then as_float64 <$> rs else rs.

(** pandas runs the statement on a cursor of the connection; when that
    raises, pandas rolls the connection back itself and raises its own
    [DatabaseError] from the exception, or from the one that the rollback
    raised. *)
Definition pandas_execute (conn : nat) (s : statement) : M cursor :=
  try_except_as (execute conn s) (λ exc,
    try_except_as (rollback conn)
      (λ inner_exc, raise (DatabaseError inner_exc)) ;;
    raise (DatabaseError exc)).

(** [pd.read_sql_query(sql, conn)] *)
Definition read_sql_query (s : statement) (conn : nat) : M (list row) :=
  cur ← pandas_execute conn s ;
  ret (frame (fetched cur)).

(** ** The data-access functions *)

Definition get_conn : M nat := connect.

Definition create_table : M unit :=
  conn ← get_conn ;
  with_ conn (
    cur ← execute conn CreateTableIfNotExists ;
    commit conn).

Definition insert_entry (name : string) (age : option Z) (email : string)
    : M (option Z) :=
  conn ← get_conn ;
  with_ conn (
    cur ← execute conn (InsertInto name age email) ;
    commit conn ;;
    ret (lastrowid cur)).

Definition view_all : M (list row) :=
  conn ← get_conn ;
  df ← with_ conn (read_sql_query SelectAll conn) ;
  ret df.

(** [cur.fetchone()]: the first row of the result, or None. *)
Definition fetchone (cur : cursor) : option row := head (fetched cur).

Definition get_entry_by_id (entry_id : Z) : M (option row) :=
  conn ← get_conn ;
  row ← with_ conn (
    cur ← execute conn (SelectWhereId entry_id) ;
    ret (fetchone cur)) ;
  ret row.

Definition update_entry (entry_id : Z) (name : string) (age : option Z)
    (email : string) : M unit :=
  conn ← get_conn ;
  with_ conn (
    cur ← execute conn (UpdateWhereId entry_id name age email) ;
    commit conn).

Definition delete_entry (entry_id : option Z) : M unit :=
  conn ← get_conn ;
  with_ conn (
    cur ← execute conn (DeleteWhereId entry_id) ;
    commit conn).

(** ** The script: widgets *)

(** Text is held in UTF-8, one byte per [ascii].  Python's [str.isspace]
    is true of 25 characters, which take one, two or three bytes:
    - U+0009 to U+000D, U+001C to U+001F and U+0020, one byte each;
    - U+0085 and U+00A0: [C2 85] and [C2 A0];
    - U+1680: [E1 9A 80]; U+2000 to U+200A: [E2 80 80] to [E2 80 8A];
      U+2028, U+2029 and U+202F: [E2 80 A8], [E2 80 A9] and [E2 80 AF];
      U+205F: [E2 81 9F]; U+3000: [E3 80 80]. *)
Definition isspace1 (b : N) : bool :=
  ((9 <=? b) && (b <=? 13) || (28 <=? b) && (b <=? 32))%N.

Definition isspace2 (b1 b2 : N) : bool :=
  ((b1 =? 194) && ((b2 =? 133) || (b2 =? 160)))%N.

Definition isspace3 (b1 b2 b3 : N) : bool :=
  ((b1 =? 225) && (b2 =? 154) && (b3 =? 128)
   || (b1 =? 226) && (b2 =? 128)
      && ((128 <=? b3) && (b3 <=? 138)
          || (b3 =? 168) || (b3 =? 169) || (b3 =? 175))
   || (b1 =? 226) && (b2 =? 129) && (b3 =? 159)
   || (b1 =? 227) && (b2 =? 128) && (b3 =? 128))%N.

(** The text without the whitespace characters it starts with.  With
    [mirrored] the text is read from its end, last byte first, and so are
    the bytes of each character.  No byte of a whitespace character can
    be taken for the end of another character: a character ends in a
    byte 80 to BF only after a byte from C2 on. *)
Fixpoint strip_leading (mirrored : bool) (s : string) : string :=
  match s with
  | EmptyString => EmptyString
  | String c1 s1 =>
      let b1 := Ascii.N_of_ascii c1 in
      if isspace1 b1 then strip_leading mirrored s1
      else
        match s1 with
        | EmptyString => s
        | String c2 s2 =>
            let b2 := Ascii.N_of_ascii c2 in
            if (if mirrored then isspace2 b2 b1 else isspace2 b1 b2)
            then strip_leading mirrored s2
            else
              match s2 with
              | EmptyString => s
              | String c3 s3 =>
                  let b3 := Ascii.N_of_ascii c3 in
                  if (if mirrored then isspace3 b3 b2 b1
                      else isspace3 b1 b2 b3)
                  then strip_leading mirrored s3
                  else s
              end
        end
  end.

Definition lstrip (s : string) : string := strip_leading false s.

Definition rstrip (s : string) : string :=
  String.rev (strip_leading true (String.rev s)).

(** [s.strip()] *)
Definition strip (s : string) : string := rstrip (lstrip s).

Inductive button := AddButton | SaveButton | DeleteButton.

Global Instance button_eq_dec : EqDecision button.
Proof. solve_decision. Defined.

(** One run of the script: what the user did to the widgets before the run.
    A field is [None] when the user left the widget as it was drawn, so that
    it returns its default.  At most one submit button starts a run. *)
Record interaction := Interaction {
  at_time : timestamp;
  pressed : option button;
  add_name : option string;
  add_age : option Z;
  add_email : option string;
  upd_pick : nat;
  upd_name : option string;
  upd_age : option Z;
  upd_email : option string;
  del_pick : nat;
  del_confirm : bool
}.

Definition text_input (value : string) (typed : option string) : string :=
  default value typed.

(** The number widget in the browser keeps to the bounds it was given: it
    sends a number the user entered only when that is within them. *)
Definition sent (min_value max_value : Z) (typed : option Z) : option Z :=
  match typed with
  | Some v => if bool_decide (min_value ≤ v ≤ max_value) then Some v else None
  | None => None
  end.

(** [st.number_input(label, min_value, max_value, step, value)]: the host
    refuses to draw the widget when [value] is outside the bounds; the
    script gets the number the browser sent, and [value] when it sent
    none. *)
Definition number_input (min_value max_value value : Z) (typed : option Z)
    : M Z :=
  if bool_decide (min_value ≤ value ≤ max_value)
  then ret (default value (sent min_value max_value typed))
  else raise StreamlitAPIException.

Definition selectbox (options : list string) (pick : nat) : option string :=
  options !! pick.

Definition checkbox (ticked : bool) : bool := ticked.

Definition form_submit_button (b : button) (i : interaction) : bool :=
  bool_decide (pressed i = Some b).

Definition st_error (text : string) : M unit := λ w, (inr tt, show (StError text) w).
Definition st_success (text : string) : M unit := λ w, (inr tt, show (StSuccess text) w).
Definition st_info (text : string) : M unit := λ w, (inr tt, show (StInfo text) w).
Definition st_dataframe (df : list row) : M unit := λ w, (inr tt, show (StDataframe df) w).

Definition experimental_rerun : M unit := λ w,
  if has_experimental_rerun w then (inl RerunException, w)
  else (inl AttributeError, w).

Definition session_get (key : string) (dflt : bool) : M bool := λ w,
  (inr (default dflt (session_state w !! key)), w).

Definition session_set (key : string) (b : bool) : M unit := λ w,
  (inr tt, set_session key b w).

Definition safe_rerun : M unit :=
  try_except experimental_rerun (
    let key := "_rerun_toggle" in
    old ← session_get key false ;
    session_set key (negb old)).

(** ** The script: [main] *)

(** [int(age) if age else None] *)
Definition age_or_none (age : Z) : option Z :=
  if bool_decide (age = 0) then None else Some age.

(** The f-string [{new_id}], for an id or for None. *)
Definition format_id (new_id : option Z) : string :=
  from_option pretty "None" new_id.

Definition build_options (dataframe : list row) : list (string * Z) :=
  (λ row, (pretty (col_id row) +:+ " — " +:+ col_name row, col_id row))
    <$> dataframe.

(** [next((o[1] for o in options if o[0] == selected), None)] *)
Definition next_id (selected : option string) (options : list (string * Z))
    : option Z :=
  snd <$> head (filter (λ o, Some (fst o) = selected) options).

(** "Add New Entry": the form [add_form]. *)
Definition add_section (i : interaction) : M unit :=
  let name := text_input "" (add_name i) in
  age ← number_input 0 150 0 (add_age i) ;
  let email := text_input "" (add_email i) in
  let submitted := form_submit_button AddButton i in
  if submitted then
    if bool_decide (strip name = "") then st_error "Name is required."
    else
      new_id ← insert_entry (strip name) (age_or_none age) (strip email) ;
      st_success ("Added entry (id=" +:+ format_id new_id +:+ ").")
  else ret tt.

(** "Update Record": the record picker and the form [update_form]. *)
Definition update_section (i : interaction) (options : list (string * Z))
    : M unit :=
  let option_display := fst <$> options in
  let selected := selectbox option_display (upd_pick i) in
  let selected_id := next_id selected options in
  match selected_id with
  | None => ret tt
  | Some selected_id =>
      row ← get_entry_by_id selected_id ;
      match row with
      | None => ret tt
      | Some row =>
          let u_name := text_input (col_name row) (upd_name i) in
          u_age ← number_input 0 150 (default 0 (col_age row)) (upd_age i) ;
          let u_email := text_input (default "" (col_email row)) (upd_email i) in
          let updated := form_submit_button SaveButton i in
          if updated then
            if bool_decide (strip u_name = "") then st_error "Name cannot be empty"
            else
              update_entry selected_id (strip u_name) (age_or_none u_age)
                           (strip u_email) ;;
              st_success "Record updated." ;;
              safe_rerun
          else ret tt
      end
  end.

(** "Delete Record": the record picker and the form [delete_form]. *)
Definition delete_section (i : interaction) (options : list (string * Z))
    : M unit :=
  let option_display := fst <$> options in
  let del_option := selectbox option_display (del_pick i) in
  let del_id := next_id del_option options in
  let confirm := checkbox (del_confirm i) in
  let do_delete := form_submit_button DeleteButton i in
  if do_delete then
    if negb confirm then st_error "Please confirm deletion by checking the box."
    else
      delete_entry del_id ;;
      st_success "Record deleted." ;;
      safe_rerun
  else ret tt.

(** "All Records", and under [if not df.empty] the update and delete
    parts, which draw their record pickers from the listing. *)
Definition records_section (i : interaction) : M unit :=
  df ← view_all ;
  (if bool_decide (df = []) then st_info "No records found. Add one above."
   else st_dataframe df) ;;
  if bool_decide (df = []) then ret tt
  else
    let options := build_options df in
    update_section i options ;;
    delete_section i options.

(** [main]: the table is made sure of, then the three parts of the page run
    in order.  The page title, the headers and the rules between the parts
    are fixed text and are left out of [screen]. *)
Definition main (i : interaction) : M unit :=
  create_table ;;
  add_section i ;;
  records_section i.

(** One run of the script at the time of the interaction; the world it
    leaves, whether the run ended normally or was cut short. *)
Definition run (i : interaction) (w : world) : world :=
  (main i (set_clock (at_time i) w)).2.

Definition runs (script_runs : list interaction) (w : world) : world :=
  foldl (λ w i, run i w) w script_runs.

(** The world at the first start: no database file content, no connection. *)
Definition boot (host_rerun : bool) : world :=
  World ∅ "" ∅ [] [] ∅ host_rerun.

(** ** Vocabulary of the statements proved below *)

(** The world a data-access function leaves: its connection [h] stays among
    the connections, with no transaction open; the file holds [d]. *)
Definition served (h : nat) (evs : list event) (d : gmap string table)
    (w : world) : world :=
  World d (clock w) (<[h := None]> (conns w)) (trace w ++ Connect h :: evs)
        (screen w) (session_state w) (has_experimental_rerun w).

(** The handle [connect] gives out in world [w]. *)
Definition next_handle (w : world) : nat := fresh (dom (conns w)).

(** What CREATE TABLE IF NOT EXISTS leaves of a database. *)
Definition ensure_table (db : gmap string table) : gmap string table :=
  match db !! ENTRIES with
  | Some _ => db
  | None => <[ENTRIES := empty_table]> db
  end.

(** A row holding the three values of an insert. *)
Definition has_values (name : string) (age : option Z) (email : string)
    (r : row) : Prop :=
  col_name r = name ∧ col_age r = age ∧ col_email r = Some email.

Global Instance has_values_dec name age email r :
  Decision (has_values name age email r).
Proof. unfold has_values. apply _. Defined.

(** The ids of the rows, in table order. *)
Definition ids (t : table) : list Z := col_id <$> rows t.

(** What AUTOINCREMENT maintains: no row has an id above [seq]. *)
Definition seq_covers (t : table) : Prop :=
  Forall (λ r, col_id r ≤ seq t) (rows t).

(** The table has a rowid left to hand out. *)
Definition rowid_left (t : table) : Prop :=
  seq t < MAX_ROWID ∧ Forall (λ r, col_id r < MAX_ROWID) (rows t).

(** [create_table], then three inserts, then [view_all]: the three ids that
    the inserts returned, and the listing. *)
Definition three_inserts (n1 n2 n3 : string) (a1 a2 a3 : option Z)
    (e1 e2 e3 : string) : M (list (option Z) * list row) :=
  create_table ;;
  i1 ← insert_entry n1 a1 e1 ;
  i2 ← insert_entry n2 a2 e2 ;
  i3 ← insert_entry n3 a3 e3 ;
  df ← view_all ;
  ret ([i1; i2; i3], df).

(** [n] calls of [create_table] in a row. *)
Definition create_table_times (n : nat) (w : world) : world :=
  Nat.iter n (λ w, (create_table w).2) w.

(** A call of one of the three writing functions, and a sequence of such
    calls, each at its own time.  [do_calls] gives the ids that the
    inserts returned, oldest first, and the world at the end; a call that
    raises leaves the file as it was, and the next call goes on from there. *)
Inductive call :=
  | CallInsert (name : string) (age : option Z) (email : string)
  | CallUpdate (entry_id : Z) (name : string) (age : option Z) (email : string)
  | CallDelete (entry_id : option Z).

Definition do_call (c : call) : M (option Z) :=
  match c with
  | CallInsert name age email => insert_entry name age email
  | CallUpdate entry_id name age email =>
      update_entry entry_id name age email ;; ret None
  | CallDelete entry_id => delete_entry entry_id ;; ret None
  end.

Fixpoint do_calls (cs : list (timestamp * call)) (w : world)
    : list Z * world :=
  match cs with
  | [] => ([], w)
  | (now, c) :: cs =>
      let (r, w1) := do_call c (set_clock now w) in
      let (assigned, w2) := do_calls cs w1 in
      (match r with inr (Some i) => i :: assigned | _ => assigned end, w2)
  end.

(** What [execute] makes of a statement on a connection that has no
    transaction open: the statement is compiled, its parameters are bound,
    and it runs. *)
Definition run_statement (now : timestamp) (s : statement)
    (db : gmap string table) : exn + gmap string table * cursor :=
  if negb (prepared s db) then inl (NoSuchTable ENTRIES)
  else if negb (bindable s) then inl OverflowError
  else exec now s db.


(** A driver call that writes rows. *)
Definition writes (ev : event) : bool :=
  match ev with
  | Execute _ s => is_dml s
  | _ => false
  end.

Definition is_success (m : message) : bool :=
  match m with StSuccess _ => true | _ => false end.

(** [w'] comes from [w] by reading only: the file is the same, the driver
    calls added write no row, and no success message was added. *)
Definition read_only (w w' : world) : Prop :=
  disk w' = disk w ∧ clock w' = clock w ∧
  (∃ evs : list event,
      trace w' = trace w ++ evs ∧ Forall (λ ev, writes ev = false) evs) ∧
  (∃ msgs : list message,
      screen w' = screen w ++ msgs ∧
           Forall (λ m, is_success m = false) msgs).

Definition quiet {A} (m : M A) : Prop := ∀ w, read_only w (m w).2.

(** An age that every column type of a DataFrame holds as it is, and that
    no other integer is rounded to: NULL, or an integer below 2^53 in
    size. *)
Definition small_age (age : option Z) : Prop :=
  ∀ a, age = Some a → - 2 ^ 53 < a < 2 ^ 53.

(** The bounds of the age widgets. *)
Definition age_in_range (r : row) : Prop :=
  ∀ a, col_age r = Some a → 0 ≤ a ≤ 150.

Definition ages_ok (db : gmap string table) : Prop :=
  ∀ t, db !! ENTRIES = Some t → Forall age_in_range (rows t).

(** [m] keeps [I], and gives only results that satisfy [Q]. *)
Definition keeps {A} (I : world → Prop) (m : M A) (Q : A → Prop) : Prop :=
  ∀ w, I w → I (m w).2 ∧ ∀ a, (m w).1 = inr a → Q a.

(** The world once [records_section] has listed a table [t] that has
    rows: one more connection, and the listing on the screen. *)
Definition listed (t : table) (w : world) : world :=
  show (StDataframe (frame (select_all t)))
    (served (next_handle w)
       [Execute (next_handle w) SelectAll; Commit (next_handle w)]
       (disk w) w).

(** The world once [update_section] has fetched the selected row. *)
Definition fetched_row (selected_id : Z) (w : world) : world :=
  served (next_handle w)
    [Execute (next_handle w) (SelectWhereId selected_id);
     Commit (next_handle w)]
    (disk w) w.

(** The world in which [main] starts its sections: the clock at the time of
    the interaction, and [create_table] done. *)
Definition started (i : interaction) (w : world) : world :=
  (create_table (set_clock (at_time i) w)).2.

(** [m] leaves the file as it is. *)
Definition keeps_disk {A} (m : M A) : Prop := ∀ w, disk (m w).2 = disk w.

(** The update form is drawn for row [r], which has id [selected_id]: the
    table has rows, the record picker gives that id, which is one the
    engine can hold, the row is found, and its age is one the age widget
    can start from. *)
Definition update_form_drawn (i : interaction) (t : table) (selected_id : Z)
    (r : row) : Prop :=
  rows t ≠ [] ∧
  (let options := build_options (select_all t) in
   next_id (selectbox (fst <$> options) (upd_pick i)) options
     = Some selected_id) ∧
  is_int64 selected_id = true ∧
  head (select_where_id selected_id t) = Some r ∧
  0 ≤ default 0 (col_age r) ≤ 150.


(** The age a statement writes, if it writes one. *)
Definition written_age (s : statement) : option Z :=
  match s with
  | InsertInto _ age _ | UpdateWhereId _ _ age _ => age
  | _ => None
  end.

Definition age_ok (age : option Z) : Prop := ∀ a, age = Some a → 0 ≤ a ≤ 150.

(** ** Vocabulary of the further properties *)

(** The text of a row in the record pickers: [f"{int(row['id'])} — {row['name']}"]. *)
Definition option_text (r : row) : string :=
  pretty (col_id r) +:+ " — " +:+ col_name r.

Fixpoint has_space (s : string) : bool :=
  match s with
  | EmptyString => false
  | String c s' => bool_decide (c = Ascii.Space) || has_space s'
  end.

(** A table as the engine holds it: every id is a 64-bit integer. *)
Definition ids_int64 (t : table) : Prop :=
  Forall (λ r, is_int64 (col_id r) = true) (rows t).

(** No row has an empty name. *)
Definition names_ok (db : gmap string table) : Prop :=
  ∀ t, db !! ENTRIES = Some t → Forall (λ r, col_name r ≠ "") (rows t).

(** The primary key: no id twice, and none above [seq]. *)
Definition keys_ok (db : gmap string table) : Prop :=
  ∀ t, db !! ENTRIES = Some t → seq_covers t ∧ NoDup (ids t).

(** The name a statement writes, if it writes one. *)
Definition written_name (s : statement) : option string :=
  match s with
  | InsertInto name _ _ | UpdateWhereId _ name _ _ => Some name
  | _ => None
  end.

(** What the forms let through to a statement: an age within the bounds of
    the age widgets, and a name that is not empty. *)
Definition from_forms (s : statement) : Prop :=
  age_ok (written_age s) ∧ written_name s ≠ Some "".

(** [J] holds of the file after every statement that the forms let
    through, when it held before. *)
Definition exec_closed (J : gmap string table → Prop) : Prop :=
  ∀ now s db, J db → from_forms s →
    match exec now s db with
    | inr (d, _) => J d
    | inl _ => True
    end.

(** [J] holds of the file of a world. *)
Definition on_disk (J : gmap string table → Prop) (w : world) : Prop :=
  J (disk w).

(** [m] shows nothing. *)
Definition keeps_screen {A} (m : M A) : Prop :=
  ∀ w, screen (m w).2 = screen w.

(** * Proofs *)

(** ** The driver *)


Lemma exec_select_same now s db db' c :
  is_dml s = false → s ≠ CreateTableIfNotExists →
  exec now s db = inr (db', c) → db' = db.
Proof.
  unfold exec. intros Hd Hs.
  destruct (db !! ENTRIES) as [t|] eqn:Ht.
  - destruct s; simpl in *; try done; intros [= <- _]; by apply insert_id.
  - destruct s; done.
Qed.

Lemma exec_create now db :
  exec now CreateTableIfNotExists db = inr (ensure_table db, Cursor None []).
Proof.
  unfold exec, ensure_table. destruct (db !! ENTRIES) eqn:Ht; simpl; [|done].
  by rewrite insert_id.
Qed.

Lemma bind_inr {A B} (m : M A) (k : A → M B) (w w1 : world) a :
  m w = (inr a, w1) → (m ≫= k) w = k a w1.
Proof. intros H. unfold mbind, M_bind, bind. by rewrite H. Qed.

Lemma bind_inl {A B} (m : M A) (k : A → M B) (w w1 : world) e :
  m w = (inl e, w1) → (m ≫= k) w = (inl e, w1).
Proof. intros H. unfold mbind, M_bind, bind. by rewrite H. Qed.

Ltac flatten_world :=
  cbv beta iota delta
    [served log set_conn set_disk set_clock show set_session disk clock conns
     trace screen session_state has_experimental_rerun].

Ltac driver_steps :=
  repeat (progress (flatten_world; simpl; rewrite ?lookup_insert_eq)).

Ltac run_driver :=
  unfold mbind, M_bind, mret, M_ret, bind, ret, get_conn, connect, with_,
    execute, commit, rollback; driver_steps.

Lemma world_eq d c k t s ss r d' k' t' :
  d = d' → k = k' → t = t' →
  World d c k t s ss r = World d' c k' t' s ss r.
Proof. by intros -> -> ->. Qed.

Lemma create_table_eq (w : world) :
  create_table w =
    (inr tt,
     served (next_handle w)
       [Execute (next_handle w) CreateTableIfNotExists;
        Commit (next_handle w); Commit (next_handle w)]
       (ensure_table (disk w)) w).
Proof.
  destruct w as [d0 c0 k0 t0 s0 ss0 r0]. unfold create_table, next_handle. run_driver. rewrite exec_create. driver_steps.
  f_equal. flatten_world.
  apply world_eq; [done| |by rewrite <- !app_assoc].
  done.
Qed.

Ltac close_world :=
  flatten_world; simpl;
  rewrite ?insert_insert_eq;
  f_equal; apply world_eq; rewrite <- ?app_assoc; done.

Lemma run_statement_exec now s (db : gmap string table) :
  bindable s = true → run_statement now s db = exec now s db.
Proof.
  intros Hb. unfold run_statement. rewrite Hb. simpl.
  destruct (prepared s db) eqn:Hp; [done|]. simpl.
  unfold exec. destruct s; try done; simpl in Hp;
    apply bool_decide_eq_false in Hp;
    (destruct (db !! ENTRIES); [exfalso; apply Hp; eauto|done]).
Qed.

Lemma run_statement_inr now s (db : gmap string table) x :
  run_statement now s db = inr x → exec now s db = inr x ∧ bindable s = true.
Proof.
  unfold run_statement. destruct (prepared s db); [|done]. simpl.
  destruct (bindable s); [|done]. simpl. done.
Qed.


Lemma insert_entry_eq name age email (w : world) :
  insert_entry name age email w =
    let h := next_handle w in
    let s := InsertInto name age email in
    match run_statement (clock w) s (disk w) with
    | inl e => (inl e, served h [Execute h s; Rollback h] (disk w) w)
    | inr (d, c) =>
        (inr (lastrowid c), served h [Execute h s; Commit h; Commit h] d w)
    end.
Proof.
  destruct w as [d0 c0 k0 t0 s0 ss0 r0].
  unfold insert_entry, next_handle, run_statement. run_driver.
  destruct (bool_decide _); simpl; [|driver_steps; close_world].
  destruct (from_option _ _ _); simpl; [|driver_steps; close_world].
  destruct (exec _ _ _) as [e|[d c]]; driver_steps; close_world.
Qed.

Lemma update_entry_eq entry_id name age email (w : world) :
  update_entry entry_id name age email w =
    let h := next_handle w in
    let s := UpdateWhereId entry_id name age email in
    match run_statement (clock w) s (disk w) with
    | inl e => (inl e, served h [Execute h s; Rollback h] (disk w) w)
    | inr (d, c) => (inr tt, served h [Execute h s; Commit h; Commit h] d w)
    end.
Proof.
  destruct w as [d0 c0 k0 t0 s0 ss0 r0].
  unfold update_entry, next_handle, run_statement. run_driver.
  destruct (bool_decide _); simpl; [|driver_steps; close_world].
  destruct (is_int64 _ && _); simpl; [|driver_steps; close_world].
  destruct (exec _ _ _) as [e|[d c]]; driver_steps; close_world.
Qed.

Lemma delete_entry_eq entry_id (w : world) :
  delete_entry entry_id w =
    let h := next_handle w in
    let s := DeleteWhereId entry_id in
    match run_statement (clock w) s (disk w) with
    | inl e => (inl e, served h [Execute h s; Rollback h] (disk w) w)
    | inr (d, c) => (inr tt, served h [Execute h s; Commit h; Commit h] d w)
    end.
Proof.
  destruct w as [d0 c0 k0 t0 s0 ss0 r0].
  unfold delete_entry, next_handle, run_statement. run_driver.
  destruct (bool_decide _); simpl; [|driver_steps; close_world].
  destruct (from_option _ _ _); simpl; [|driver_steps; close_world].
  destruct (exec _ _ _) as [e|[d c]]; driver_steps; close_world.
Qed.

Lemma exec_is_Exception now s db e :
  exec now s db = inl e → is_Exception e = true.
Proof.
  unfold exec. destruct (db !! ENTRIES) as [t|].
  - destruct s; simpl; try done. unfold insert_row.
    destruct (new_rowid t); [done|]. by intros [= <-].
  - destruct s; try done; by intros [= <-].
Qed.

Lemma view_all_eq (w : world) :
  view_all w =
    let h := next_handle w in
    match run_statement (clock w) SelectAll (disk w) with
    | inl e =>
        (inl (DatabaseError e),
         served h [Execute h SelectAll; Rollback h; Rollback h] (disk w) w)
    | inr (d, c) =>
        (inr (frame (fetched c)),
         served h [Execute h SelectAll; Commit h] (disk w) w)
    end.
Proof.
  destruct w as [d0 c0 k0 t0 s0 ss0 r0].
  unfold view_all, read_sql_query, pandas_execute, try_except_as, try_except,
    raise, next_handle, run_statement.
  run_driver.
  destruct (bool_decide _); simpl; [|driver_steps; close_world].
  destruct (exec _ _ _) as [e|[d c]] eqn:He; driver_steps.
  - rewrite (exec_is_Exception _ _ _ _ He). driver_steps. close_world.
  - apply exec_select_same in He as ->; [|done..]. close_world.
Qed.

Lemma get_entry_by_id_eq entry_id (w : world) :
  get_entry_by_id entry_id w =
    let h := next_handle w in
    let s := SelectWhereId entry_id in
    match run_statement (clock w) s (disk w) with
    | inl e => (inl e, served h [Execute h s; Rollback h] (disk w) w)
    | inr (d, c) =>
        (inr (fetchone c), served h [Execute h s; Commit h] (disk w) w)
    end.
Proof.
  destruct w as [d0 c0 k0 t0 s0 ss0 r0].
  unfold get_entry_by_id, next_handle, run_statement. run_driver.
  destruct (bool_decide _); simpl; [|driver_steps; close_world].
  destruct (is_int64 _); simpl; [|driver_steps; close_world].
  destruct (exec _ _ _) as [e|[d c]] eqn:He; driver_steps; [close_world|].
  apply exec_select_same in He as ->; [|done..]. close_world.
Qed.

(** ** The storage engine *)

Lemma max_rowid_empty rs : max_rowid rs = None → rs = [].
Proof.
  destruct rs as [|r rs]; [done|]. simpl. by destruct (max_rowid rs).
Qed.

Lemma max_rowid_bound rs m :
  max_rowid rs = Some m → Forall (λ r, col_id r ≤ m) rs.
Proof.
  revert m. induction rs as [|r rs IH]; intros m; [constructor|].
  simpl. destruct (max_rowid rs) as [m'|] eqn:Hm; intros [= <-].
  - constructor; [lia|].
    eapply Forall_impl; [by apply IH|]. simpl. intros; lia.
  - apply max_rowid_empty in Hm as ->. repeat constructor. lia.
Qed.

Lemma new_rowid_fresh t i :
  new_rowid t = Some i →
  seq t < i ∧ Forall (λ r, col_id r < i) (rows t).
Proof.
  unfold new_rowid. case_decide; [done|].
  destruct (max_rowid (rows t)) as [m|] eqn:Hm.
  - case_decide; [done|]. intros [= <-]. split; [lia|].
    eapply Forall_impl; [by apply max_rowid_bound|]. simpl. intros; lia.
  - intros [= <-]. apply max_rowid_empty in Hm as ->. split; [lia|constructor].
Qed.

Lemma max_rowid_elem rs m : max_rowid rs = Some m → ∃ r, r ∈ rs ∧ col_id r = m.
Proof.
  revert m. induction rs as [|r rs IH]; intros m; [done|].
  simpl. destruct (max_rowid rs) as [m'|] eqn:Hm; intros [= <-].
  - destruct (IH m' eq_refl) as (r' & Hr' & Heq).
    destruct (Z.max_spec (col_id r) m') as [[_ ->]|[_ ->]].
    + exists r'. split; [by right|done].
    + exists r. split; [by left|done].
  - exists r. split; [by left|done].
Qed.

Lemma new_rowid_left t : rowid_left t → is_Some (new_rowid t).
Proof.
  intros [Hs Hr]. unfold new_rowid. case_decide; [lia|].
  destruct (max_rowid (rows t)) as [m|] eqn:Hm; [|by eexists].
  case_decide; [|by eexists]. subst m.
  apply max_rowid_elem in Hm as (r & Hin & Heq).
  rewrite Forall_forall in Hr. specialize (Hr r Hin). lia.
Qed.

Lemma exec_entries now s (db : gmap string table) t :
  db !! ENTRIES = Some t →
  exec now s db =
    match exec_on now s t with
    | inl e => inl e
    | inr (t', c) => inr (<[ENTRIES := t']> db, c)
    end.
Proof. unfold exec. by intros ->. Qed.

Lemma run_statement_entries now s (db : gmap string table) t :
  db !! ENTRIES = Some t →
  run_statement now s db =
    if bindable s then
      match exec_on now s t with
      | inl e => inl e
      | inr (t', c) => inr (<[ENTRIES := t']> db, c)
      end
    else inl OverflowError.
Proof.
  intros Ht. destruct (bindable s) eqn:Hb.
  - rewrite run_statement_exec by done. by apply exec_entries.
  - unfold run_statement. rewrite Hb.
    destruct s; simpl; try done; rewrite Ht;
      by rewrite bool_decide_eq_true_2 by eauto.
Qed.

Lemma run_statement_no_table now s (db : gmap string table) :
  db !! ENTRIES = None → s ≠ CreateTableIfNotExists →
  run_statement now s db = inl (NoSuchTable ENTRIES).
Proof.
  intros Ht Hs. unfold run_statement.
  destruct s; try done; simpl; rewrite Ht;
    by rewrite bool_decide_eq_false_2 by (by intros [? ?]).
Qed.


Lemma insert_entry_ok name age email (w : world) (t : table) (i : Z) :
  disk w !! ENTRIES = Some t → new_rowid t = Some i →
  from_option is_int64 true age = true →
  insert_entry name age email w =
    (inr (Some i),
     served (next_handle w)
       [Execute (next_handle w) (InsertInto name age email);
        Commit (next_handle w); Commit (next_handle w)]
       (<[ENTRIES :=
            Table (rows t ++ [Row i name age (Some email) (Some (clock w))]) i]>
          (disk w)) w).
Proof.
  intros Ht Hi Hage. rewrite insert_entry_eq. cbv zeta.
  rewrite run_statement_exec by done.
  rewrite (exec_entries _ _ _ t Ht). simpl. unfold insert_row. by rewrite Hi.
Qed.

Lemma view_all_ok (w : world) (t : table) :
  disk w !! ENTRIES = Some t →
  view_all w =
    (inr (frame (select_all t)),
     served (next_handle w)
       [Execute (next_handle w) SelectAll; Commit (next_handle w)]
       (disk w) w).
Proof.
  intros Ht. rewrite view_all_eq. cbv zeta.
  rewrite run_statement_exec by done.
  by rewrite (exec_entries _ _ _ t Ht).
Qed.

(** ** The listing as a DataFrame *)

Lemma float64_exact (x : Z) : - 2 ^ 53 ≤ x ≤ 2 ^ 53 → float64 x = x.
Proof.
  intros Hx. unfold float64. rewrite bool_decide_eq_true_2; [done|lia].
Qed.



Lemma as_float64_small (r : row) : small_age (col_age r) → as_float64 r = r.
Proof.
  destruct r as [i n [a|] e c]; unfold as_float64; simpl; [|done].
  intros Ha. rewrite float64_exact; [done|]. specialize (Ha a eq_refl). lia.
Qed.

Lemma frame_fmap (rs : list row) :
  ∃ g : row → row, frame rs = g <$> rs ∧ (g = as_float64 ∨ g = id).
Proof.
  unfold frame. case_bool_decide.
  - exists as_float64. by split; [|left].
  - exists id. split; [by rewrite list_fmap_id|by right].
Qed.

Lemma frame_small (rs : list row) :
  Forall (λ r, small_age (col_age r)) rs → frame rs = rs.
Proof.
  intros Hs. unfold frame. case_bool_decide; [|done].
  rewrite <- (list_fmap_id rs) at 2. apply Forall_fmap_ext_1.
  eapply Forall_impl; [done|]. intros r Hr. by apply as_float64_small.
Qed.



Lemma frame_length (rs : list row) : length (frame rs) = length rs.
Proof. destruct (frame_fmap rs) as (g & -> & _). apply length_fmap. Qed.

Lemma frame_nil (rs : list row) : frame rs = [] ↔ rs = [].
Proof.
  split; [|by intros ->].
  intros H. apply nil_length_inv. by rewrite <- frame_length, H.
Qed.

Global Instance frame_Permutation : Proper ((≡ₚ) ==> (≡ₚ)) frame.
Proof.
  intros l1 l2 Hl. unfold frame.
  rewrite (bool_decide_ext (None ∈ col_age <$> l1) (None ∈ col_age <$> l2))
    by (by rewrite Hl).
  case_bool_decide; by rewrite Hl.
Qed.

Lemma build_options_frame (rs : list row) :
  build_options (frame rs) = build_options rs.
Proof.
  unfold build_options.
  destruct (frame_fmap rs) as (g & -> & [->| ->]);
    rewrite <- list_fmap_compose; by apply list_fmap_ext.
Qed.






(** ** Claims on the data-access functions *)



Global Instance order_by_id_desc_trans : Transitive order_by_id_desc.
Proof. unfold order_by_id_desc. intros x y z ? ?. lia. Qed.

Global Instance order_by_id_desc_total : Total order_by_id_desc.
Proof. unfold order_by_id_desc. intros x y. lia. Qed.







Lemma ensure_table_idem (db : gmap string table) :
  ensure_table (ensure_table db) = ensure_table db.
Proof.
  unfold ensure_table. destruct (db !! ENTRIES) eqn:Ht.
  - by rewrite Ht.
  - by rewrite lookup_insert_eq.
Qed.

Lemma create_table_disk (w : world) :
  disk (create_table w).2 = ensure_table (disk w).
Proof. by rewrite create_table_eq. Qed.

Lemma create_table_times_disk (n : nat) (w : world) :
  disk (create_table_times (S n) w) = ensure_table (disk w).
Proof.
  induction n as [|n IH].
  - apply create_table_disk.
  - change (create_table_times (S (S n)) w)
      with ((create_table (create_table_times (S n) w)).2).
    by rewrite create_table_disk, IH, ensure_table_idem.
Qed.

(** C6: [create_table] is idempotent.  It never raises; after one run or
    more the file is what one run leaves: the [entries] table that was there,
    rows and [seq] as they were, or an empty one when there was none, and
    every other table as it was, so that no second table appears; any number
    of runs on a file that has the table leaves the file as it was, and any
    number of further runs after the first changes nothing. *)
Theorem create_table_idempotent (w : world) (n : nat) :
  (create_table (create_table_times n w)).1 = inr tt ∧
  disk (create_table_times (S n) w) = ensure_table (disk w) ∧
  ensure_table (disk w) !! ENTRIES =
    Some (default empty_table (disk w !! ENTRIES)) ∧
  dom (ensure_table (disk w)) = {[ENTRIES]} ∪ dom (disk w) ∧
  (∀ k, k ≠ ENTRIES → ensure_table (disk w) !! k = disk w !! k) ∧
  (is_Some (disk w !! ENTRIES) → disk (create_table_times n w) = disk w) ∧
  disk (create_table_times n (create_table w).2) = disk (create_table w).2.
Proof.
  split; [by rewrite create_table_eq|].
  split; [apply create_table_times_disk|].
  assert (Hsome : ∀ db : gmap string table,
            is_Some (db !! ENTRIES) → ensure_table db = db).
  { intros db [t Ht]. unfold ensure_table. by rewrite Ht. }
  split.
  { unfold ensure_table. destruct (disk w !! ENTRIES) eqn:Ht; simpl; [done|].
    by rewrite lookup_insert_eq. }
  split.
  { unfold ensure_table. destruct (disk w !! ENTRIES) eqn:Ht.
    - apply (elem_of_dom_2 (D := gset string)) in Ht.
      apply set_eq. intros k. rewrite elem_of_union, elem_of_singleton.
      split; [by right|]. by intros [->|?].
    - by rewrite dom_insert_L. }
  split.
  { intros k Hk. unfold ensure_table. destruct (disk w !! ENTRIES); [done|].
    by rewrite lookup_insert_ne. }
  split.
  - intros Hs. destruct n as [|n]; [done|].
    rewrite create_table_times_disk. by apply Hsome.
  - destruct n as [|n]; [done|].
    by rewrite create_table_times_disk, create_table_disk, ensure_table_idem.
Qed.

Lemma create_table_idempotent_witness :
  disk (create_table_times 3
          (three_inserts "a" "b" "c" None None None "" "" "" (boot true)).2)
  = disk (three_inserts "a" "b" "c" None None None "" "" "" (boot true)).2.
Proof.
  destruct (create_table_idempotent
              (three_inserts "a" "b" "c" None None None "" "" "" (boot true)).2
              3) as (_ & _ & _ & _ & _ & Hsame & _).
  apply Hsame. eexists. vm_compute. reflexivity.
Defined.



(** ** Ids across sequences of calls *)

Lemma ids_update_rows entry_id name age email (rs : list row) :
  col_id <$> update_rows entry_id name age email rs = col_id <$> rs.
Proof.
  unfold update_rows. rewrite <- list_fmap_compose. apply list_fmap_ext.
  intros k r _. simpl. by case_decide.
Qed.

Lemma Forall_delete_rows (P : row → Prop) entry_id (rs : list row) :
  Forall P rs → Forall P (delete_rows entry_id rs).
Proof.
  rewrite !Forall_forall. intros H r Hr. apply H.
  unfold delete_rows in Hr. by apply list_elem_of_filter in Hr as [_ ?].
Qed.

Lemma do_call_step (c : call) (w : world) (t : table) :
  disk w !! ENTRIES = Some t → seq_covers t → NoDup (ids t) →
  ∃ t', disk (do_call c w).2 !! ENTRIES = Some t' ∧
    seq_covers t' ∧ NoDup (ids t') ∧
    match (do_call c w).1 with
    | inr (Some i) => ids t' = ids t ++ [i] ∧ seq t < i ∧ seq t' = i
    | _ => ids t' `sublist_of` ids t ∧ seq t' = seq t
    end.
Proof.
  intros Ht Hcov Hnd. unfold seq_covers, ids in *.
  destruct c as [name age email|entry_id name age email|entry_id];
    unfold do_call, mbind, M_bind, bind.
  - rewrite insert_entry_eq. cbv zeta.
    rewrite (run_statement_entries _ _ _ t Ht).
    destruct (bindable _); [|exists t; by repeat split].
    simpl. unfold insert_row. destruct (new_rowid t) as [i|] eqn:Hi; simpl.
    + destruct (new_rowid_fresh t i Hi) as [Hseq Hids].
      eexists. split; [apply lookup_insert_eq|]. simpl.
      split; [|split; [|by rewrite fmap_app]].
      * apply Forall_app. split; [|repeat constructor; simpl; lia].
        eapply Forall_impl; [exact Hids|]. simpl. intros; lia.
      * rewrite fmap_app. apply NoDup_app. split; [done|]. simpl.
        split; [|apply NoDup_singleton].
        intros x Hx Hin. apply list_elem_of_singleton in Hin as ->.
        apply list_elem_of_fmap in Hx as (r & -> & Hr).
        rewrite Forall_forall in Hids. specialize (Hids r Hr). lia.
    + exists t. by repeat split.
  - rewrite update_entry_eq. cbv zeta.
    rewrite (run_statement_entries _ _ _ t Ht).
    destruct (bindable _); [|exists t; by repeat split].
    simpl. eexists. split; [apply lookup_insert_eq|]. simpl.
    rewrite ids_update_rows. split; [|by repeat split].
    unfold update_rows. apply Forall_fmap.
    eapply Forall_impl; [exact Hcov|]. intros r Hr. simpl. by case_decide.
  - rewrite delete_entry_eq. cbv zeta.
    rewrite (run_statement_entries _ _ _ t Ht).
    destruct (bindable _); [|exists t; by repeat split].
    simpl. eexists. split; [apply lookup_insert_eq|]. simpl.
    assert (Hsub : col_id <$> delete_rows entry_id (rows t)
                   `sublist_of` col_id <$> rows t).
    { apply fmap_sublist. unfold delete_rows. apply sublist_filter. }
    split; [by apply Forall_delete_rows|].
    split; [by eapply sublist_NoDup|]. by split.
Qed.

(** C9: ids are never reused and never changed.  From a table as
    AUTOINCREMENT keeps it (no id above [seq], no id twice), over every
    sequence of [insert_entry], [update_entry] and [delete_entry] calls: the
    ids that the inserts assign go strictly up and lie above every id the
    table held or handed out before, so that the ids of the first table
    together with all the ids assigned since hold no id twice, whatever was
    deleted in between; and the ids of the rows at the end are, in order,
    ids of the first table and assigned ids with some left out: a call may
    remove an id or add a new one at the end, it never changes one. *)
Theorem ids_never_reused_or_mutated (cs : list (timestamp * call))
    (w : world) (t : table) :
  disk w !! ENTRIES = Some t → seq_covers t → NoDup (ids t) →
  ∃ t', disk (do_calls cs w).2 !! ENTRIES = Some t' ∧
    seq_covers t' ∧ NoDup (ids t') ∧
    Forall (λ i, seq t < i ≤ seq t') (do_calls cs w).1 ∧ seq t ≤ seq t' ∧
    StronglySorted Z.lt (do_calls cs w).1 ∧
    NoDup (ids t ++ (do_calls cs w).1) ∧
    ids t' `sublist_of` ids t ++ (do_calls cs w).1.
Proof.
  revert w t. induction cs as [|[now c] cs IH]; intros w t Ht Hcov Hnd.
  - exists t. simpl. rewrite app_nil_r.
    repeat split; try done; try constructor.
  - simpl.
    destruct (do_call_step c (set_clock now w) t Ht Hcov Hnd)
      as (t1 & Ht1 & Hcov1 & Hnd1 & Hstep).
    destruct (do_call c (set_clock now w)) as [r w1]. simpl in Ht1, Hstep.
    destruct (IH w1 t1 Ht1 Hcov1 Hnd1)
      as (t' & Ht' & Hcov' & Hnd' & Hall & Hle & Hsort & Hnodup & Hsub).
    destruct (do_calls cs w1) as [assigned w2]. simpl in *.
    exists t'. split; [done|]. split; [done|]. split; [done|].
    assert (Hother :
      ids t1 `sublist_of` ids t → seq t1 = seq t →
      Forall (λ i, seq t < i ≤ seq t') assigned ∧ seq t ≤ seq t' ∧
      StronglySorted Z.lt assigned ∧ NoDup (ids t ++ assigned) ∧
      ids t' `sublist_of` ids t ++ assigned).
    { intros Hs Heq. rewrite Heq in Hall, Hle.
      split; [done|]. split; [done|]. split; [done|]. split.
      - apply NoDup_app. split; [done|].
        split; [|by apply NoDup_app in Hnodup as (_ & _ & ?)].
        intros x Hx Hin. unfold ids in Hx.
        apply list_elem_of_fmap in Hx as (r' & -> & Hr').
        unfold seq_covers in Hcov. rewrite Forall_forall in Hcov.
        rewrite Forall_forall in Hall.
        specialize (Hcov r' Hr'). specialize (Hall _ Hin). lia.
      - trans (ids t1 ++ assigned); [exact Hsub|].
        apply sublist_app; [exact Hs|done]. }
    destruct r as [e|[i|]];
      [apply Hother; apply Hstep| |apply Hother; apply Hstep].
    destruct Hstep as (Hids & Hlt & Hseq). rewrite Hids in *.
    rewrite <- app_assoc in Hnodup, Hsub. simpl in Hnodup, Hsub.
    split.
    { constructor; [lia|]. eapply Forall_impl; [exact Hall|].
      simpl. intros; lia. }
    split; [lia|]. split; [|done].
    constructor; [done|]. eapply Forall_impl; [exact Hall|]. simpl.
    intros; lia.
Qed.

Lemma ids_never_reused_or_mutated_witness :
  let w := (create_table (boot true)).2 in
  let cs := [("2024-01-01 10:00:00", CallInsert "Alice" (Some 30) "a@x.com");
             ("2024-01-01 10:05:00", CallInsert "Bob" None "");
             ("2024-01-01 10:10:00", CallDelete (Some 2));
             ("2024-01-01 10:15:00", CallUpdate 1 "Al" None "");
             ("2024-01-01 10:20:00", CallInsert "Carol" (Some 41) "c@x.com")] in
  ∃ t', disk (do_calls cs w).2 !! ENTRIES = Some t' ∧
        (do_calls cs w).1 = [1; 2; 3] ∧ ids t' = [1; 3].
Proof.
  intros w cs.
  destruct (ids_never_reused_or_mutated cs w empty_table)
    as (t' & Ht' & _).
  - reflexivity.
  - constructor.
  - constructor.
  - exists t'. split; [exact Ht'|].
    vm_compute in Ht'. injection Ht' as <-. split; reflexivity.
Defined.

(** ** Deleting *)

Lemma delete_rows_no_match entry_id (rs : list row) :
  (∀ r, r ∈ rs → Some (col_id r) ≠ entry_id) → delete_rows entry_id rs = rs.
Proof.
  unfold delete_rows. induction rs as [|r rs IH]; intros Hno; [done|].
  rewrite filter_cons_True by (apply Hno; by left).
  f_equal. apply IH. intros r' Hr'. apply Hno. by right.
Qed.


(** ** Runs of the script that only read *)

Lemma read_only_refl (w : world) : read_only w w.
Proof.
  repeat split; [exists []|exists []]; by rewrite app_nil_r.
Qed.

Lemma read_only_trans (w1 w2 w3 : world) :
  read_only w1 w2 → read_only w2 w3 → read_only w1 w3.
Proof.
  intros (Hd1 & Hc1 & (e1 & He1 & Hf1) & (m1 & Hm1 & Hg1))
         (Hd2 & Hc2 & (e2 & He2 & Hf2) & (m2 & Hm2 & Hg2)).
  split; [congruence|]. split; [congruence|]. split.
  - exists (e1 ++ e2). rewrite He2, He1, app_assoc.
    split; [done|]. by apply Forall_app.
  - exists (m1 ++ m2). rewrite Hm2, Hm1, app_assoc.
    split; [done|]. by apply Forall_app.
Qed.

Lemma read_only_served h evs (w : world) :
  Forall (λ ev, writes ev = false) evs →
  read_only w (served h evs (disk w) w).
Proof.
  intros Hevs. split; [done|]. split; [done|]. split.
  - exists (Connect h :: evs). split; [done|]. by constructor.
  - exists []. by rewrite app_nil_r.
Qed.

Lemma read_only_show m (w : world) :
  is_success m = false → read_only w (show m w).
Proof.
  intros Hm. split; [done|]. split; [done|]. split.
  - exists []. by rewrite app_nil_r.
  - exists [m]. split; [done|]. by repeat constructor.
Qed.

Lemma quiet_ret {A} (a : A) : quiet (mret a).
Proof. intros w. apply read_only_refl. Qed.

Lemma quiet_raise {A} e : quiet (@raise A e).
Proof. intros w. apply read_only_refl. Qed.

Lemma quiet_bind {A B} (m : M A) (k : A → M B) :
  quiet m → (∀ a, quiet (k a)) → quiet (m ≫= k).
Proof.
  intros Hm Hk w. unfold mbind, M_bind, bind.
  specialize (Hm w). destruct (m w) as [[e|a] w1]; simpl in *; [done|].
  eapply read_only_trans; [exact Hm|apply Hk].
Qed.

Lemma quiet_view_all : quiet view_all.
Proof.
  intros w. rewrite view_all_eq. cbv zeta.
  destruct (run_statement _ _ _) as [e|[d c]]; simpl; apply read_only_served;
    by repeat constructor.
Qed.

Lemma quiet_get_entry_by_id entry_id : quiet (get_entry_by_id entry_id).
Proof.
  intros w. rewrite get_entry_by_id_eq. cbv zeta.
  destruct (run_statement _ _ _) as [e|[d c]]; simpl; apply read_only_served;
    by repeat constructor.
Qed.

Lemma quiet_number_input lo hi v typed : quiet (number_input lo hi v typed).
Proof.
  unfold number_input. case_bool_decide; [apply quiet_ret|apply quiet_raise].
Qed.

Lemma quiet_st_error text : quiet (st_error text).
Proof. intros w. by apply read_only_show. Qed.

Lemma quiet_st_info text : quiet (st_info text).
Proof. intros w. by apply read_only_show. Qed.

Lemma quiet_st_dataframe df : quiet (st_dataframe df).
Proof. intros w. by apply read_only_show. Qed.


Lemma quiet_delete_section (i : interaction) options :
  pressed i ≠ Some DeleteButton ∨ del_confirm i = false →
  quiet (delete_section i options).
Proof.
  intros Hq. unfold delete_section, form_submit_button, checkbox.
  case_bool_decide; [|apply quiet_ret].
  destruct Hq as [?|Hc]; [done|]. rewrite Hc. simpl. apply quiet_st_error.
Qed.

Lemma read_only_bind {A B} (m : M A) (k : A → M B) (w : world) :
  read_only w (m w).2 →
  (∀ a w1, m w = (inr a, w1) → read_only w1 (k a w1).2) →
  read_only w ((m ≫= k) w).2.
Proof.
  intros Hm Hk. unfold mbind, M_bind, bind.
  destruct (m w) as [[e|a] w1] eqn:Hmw; simpl in *; [done|].
  eapply read_only_trans; [exact Hm|by apply Hk].
Qed.

Lemma get_entry_by_id_ok entry_id (w : world) (t : table) :
  disk w !! ENTRIES = Some t → is_int64 entry_id = true →
  get_entry_by_id entry_id w =
    (inr (head (select_where_id entry_id t)), fetched_row entry_id w).
Proof.
  intros Ht Hid. rewrite get_entry_by_id_eq. cbv zeta.
  rewrite (run_statement_entries _ _ _ t Ht). simpl. by rewrite Hid.
Qed.

Lemma get_entry_by_id_inr entry_id (w w1 : world) (t : table) row :
  disk w !! ENTRIES = Some t →
  get_entry_by_id entry_id w = (inr row, w1) →
  row = head (select_where_id entry_id t) ∧ w1 = fetched_row entry_id w.
Proof.
  intros Ht. rewrite get_entry_by_id_eq. cbv zeta.
  rewrite (run_statement_entries _ _ _ t Ht). simpl.
  destruct (is_int64 entry_id); [|done]. simpl. by intros [= <- <-].
Qed.

(** The update section reads only when "Save changes" was not pressed, and
    when the name field is blank for the row that the picker gives. *)
Lemma update_section_reads (i : interaction) options (w : world) (t : table) :
  disk w !! ENTRIES = Some t →
  (pressed i ≠ Some SaveButton ∨
   ∀ selected_id r,
     next_id (selectbox (fst <$> options) (upd_pick i)) options
       = Some selected_id →
     head (select_where_id selected_id t) = Some r →
     strip (text_input (col_name r) (upd_name i)) = "") →
  read_only w (update_section i options w).2.
Proof.
  intros Ht Hq. unfold update_section.
  destruct (next_id _ _) as [sid|] eqn:Hsel; [|apply read_only_refl].
  apply read_only_bind; [apply quiet_get_entry_by_id|].
  intros row w1 Hget.
  apply (get_entry_by_id_inr _ _ _ t) in Hget as [-> ->]; [|done].
  destruct (head (select_where_id sid t)) as [r|] eqn:Hrow;
    [|apply read_only_refl].
  apply quiet_bind; [apply quiet_number_input|].
  intros u_age. unfold form_submit_button. case_bool_decide; [|apply quiet_ret].
  destruct Hq as [?|Hblank]; [done|].
  rewrite bool_decide_true by (by apply (Hblank sid r)).
  apply quiet_st_error.
Qed.

Lemma select_all_nonempty (t : table) : rows t ≠ [] → select_all t ≠ [].
Proof.
  intros Hne Hnil. apply Hne. apply Permutation_nil_r.
  rewrite <- Hnil. unfold select_all. by rewrite merge_sort_Permutation.
Qed.

Lemma listed_read_only (t : table) (w : world) : read_only w (listed t w).
Proof.
  unfold listed. eapply read_only_trans; [|by apply read_only_show].
  apply read_only_served. by repeat constructor.
Qed.

Lemma records_section_empty (i : interaction) (w : world) (t : table) :
  disk w !! ENTRIES = Some t → rows t = [] →
  records_section i w =
    (inr tt,
     show (StInfo "No records found. Add one above.")
       (served (next_handle w)
          [Execute (next_handle w) SelectAll; Commit (next_handle w)]
          (disk w) w)).
Proof.
  intros Ht Hnil. unfold records_section.
  erewrite bind_inr; [|by apply view_all_ok].
  assert (frame (select_all t) = []) as ->.
  { apply frame_nil. unfold select_all. by rewrite Hnil. }
  reflexivity.
Qed.

Lemma records_section_rows (i : interaction) (w : world) (t : table) :
  disk w !! ENTRIES = Some t → rows t ≠ [] →
  records_section i w =
    (update_section i (build_options (select_all t)) ;;
     delete_section i (build_options (select_all t))) (listed t w).
Proof.
  intros Ht Hne. apply select_all_nonempty in Hne.
  unfold records_section.
  erewrite bind_inr; [|by apply view_all_ok].
  rewrite !bool_decide_false by (by rewrite frame_nil).
  rewrite build_options_frame.
  erewrite bind_inr; [|reflexivity]. reflexivity.
Qed.

Lemma listed_disk (t : table) (w : world) : disk (listed t w) = disk w.
Proof. done. Qed.

Lemma records_section_reads (i : interaction) (w : world) (t : table) :
  disk w !! ENTRIES = Some t →
  (pressed i ≠ Some SaveButton ∨
   ∀ selected_id r,
     (let options := build_options (select_all t) in
      next_id (selectbox (fst <$> options) (upd_pick i)) options
        = Some selected_id) →
     head (select_where_id selected_id t) = Some r →
     strip (text_input (col_name r) (upd_name i)) = "") →
  pressed i ≠ Some DeleteButton ∨ del_confirm i = false →
  read_only w (records_section i w).2.
Proof.
  intros Ht Hu Hd. destruct (decide (rows t = [])) as [Hnil|Hne].
  - rewrite (records_section_empty i w t) by done. simpl.
    eapply read_only_trans; [|by apply read_only_show].
    apply read_only_served. by repeat constructor.
  - rewrite (records_section_rows i w t) by done.
    eapply read_only_trans; [apply (listed_read_only t)|].
    apply read_only_bind.
    + by apply (update_section_reads _ _ _ t).
    + intros [] w1 _. by apply quiet_delete_section.
Qed.

Lemma main_after_create (i : interaction) (w : world) :
  main i w =
    (add_section i ;; records_section i)
      (served (next_handle w)
         [Execute (next_handle w) CreateTableIfNotExists;
          Commit (next_handle w); Commit (next_handle w)]
         (ensure_table (disk w)) w).
Proof.
  unfold main. unfold mbind at 1. unfold M_bind at 1. unfold bind at 1.
  by rewrite create_table_eq.
Qed.

Lemma ensure_table_some (db : gmap string table) t :
  db !! ENTRIES = Some t → ensure_table db = db.
Proof. intros Ht. unfold ensure_table. by rewrite Ht. Qed.



(** ** Runs of the script that write *)

Lemma quiet_keeps_disk {A} (m : M A) : quiet m → keeps_disk m.
Proof. intros Hq w. apply Hq. Qed.

Lemma keeps_disk_bind {A B} (m : M A) (k : A → M B) :
  keeps_disk m → (∀ a, keeps_disk (k a)) → keeps_disk (m ≫= k).
Proof.
  intros Hm Hk w. unfold mbind, M_bind, bind.
  specialize (Hm w). destruct (m w) as [[e|a] w1]; simpl in *; [done|].
  by rewrite Hk.
Qed.

Lemma keeps_disk_st_success text : keeps_disk (st_success text).
Proof. by intros w. Qed.

Lemma keeps_disk_safe_rerun : keeps_disk safe_rerun.
Proof.
  intros w. unfold safe_rerun, try_except, experimental_rerun.
  by destruct (has_experimental_rerun w).
Qed.

Lemma number_input_in_bounds lo hi v typed (w : world) :
  lo ≤ v ≤ hi →
  number_input lo hi v typed w = (inr (default v (sent lo hi typed)), w).
Proof. intros H. unfold number_input. by rewrite bool_decide_true. Qed.

Lemma number_input_bind {B} lo hi v typed (k : Z → M B) (w : world) :
  lo ≤ v ≤ hi →
  (number_input lo hi v typed ≫= k) w = k (default v (sent lo hi typed)) w.
Proof. intros H. by apply bind_inr, number_input_in_bounds. Qed.

Lemma sent_in_bounds lo hi v typed :
  lo ≤ v ≤ hi → lo ≤ default v (sent lo hi typed) ≤ hi.
Proof.
  intros Hv. destruct typed as [x|]; simpl; [|done].
  by case_bool_decide.
Qed.

Lemma sent_accepted lo hi (x : Z) : lo ≤ x ≤ hi → sent lo hi (Some x) = Some x.
Proof. intros Hx. simpl. by rewrite bool_decide_true. Qed.

(** The update form, once it is drawn for row [r] with id [selected_id] and
    "Save changes" is pressed. *)
Lemma update_section_form (i : interaction) options (w : world) (t : table)
    selected_id (r : row) :
  disk w !! ENTRIES = Some t →
  next_id (selectbox (fst <$> options) (upd_pick i)) options
    = Some selected_id →
  is_int64 selected_id = true →
  head (select_where_id selected_id t) = Some r →
  0 ≤ default 0 (col_age r) ≤ 150 →
  pressed i = Some SaveButton →
  update_section i options w =
    let u_name := text_input (col_name r) (upd_name i) in
    let u_age := default (default 0 (col_age r)) (sent 0 150 (upd_age i)) in
    let u_email := text_input (default "" (col_email r)) (upd_email i) in
    if bool_decide (strip u_name = "")
    then (inr tt,
          show (StError "Name cannot be empty") (fetched_row selected_id w))
    else (update_entry selected_id (strip u_name) (age_or_none u_age)
                       (strip u_email) ;;
          st_success "Record updated." ;;
          safe_rerun) (fetched_row selected_id w).
Proof.
  intros Ht Hsel Hid Hrow Hage Hsave. unfold update_section. rewrite Hsel.
  erewrite bind_inr; [|by apply (get_entry_by_id_ok _ _ t)].
  rewrite Hrow. cbv beta iota. rewrite number_input_bind by done.
  unfold form_submit_button. rewrite bool_decide_true by done.
  cbv zeta. by case_bool_decide.
Qed.

Lemma add_section_idle (i : interaction) (w : world) :
  pressed i ≠ Some AddButton → add_section i w = (inr tt, w).
Proof.
  intros Hp. unfold add_section.
  rewrite number_input_bind by done.
  unfold form_submit_button. by rewrite bool_decide_false.
Qed.


Lemma add_section_insert (i : interaction) (w : world) :
  pressed i = Some AddButton → strip (text_input "" (add_name i)) ≠ "" →
  add_section i w =
    (new_id ← insert_entry (strip (text_input "" (add_name i)))
                (age_or_none (default 0 (sent 0 150 (add_age i))))
                (strip (text_input "" (add_email i))) ;
     st_success ("Added entry (id=" +:+ format_id new_id +:+ ").")) w.
Proof.
  intros Hp Hname. unfold add_section.
  rewrite number_input_bind by done.
  unfold form_submit_button. rewrite bool_decide_true by done.
  by rewrite bool_decide_false.
Qed.

(** The age a form hands to its statement can be bound. *)
Lemma age_or_none_bindable lo hi v typed :
  0 ≤ lo → hi ≤ 150 → lo ≤ v ≤ hi →
  from_option is_int64 true (age_or_none (default v (sent lo hi typed)))
    = true.
Proof.
  intros Hlo Hhi Hv. pose proof (sent_in_bounds lo hi v typed Hv) as Hb.
  unfold age_or_none. case_bool_decide; [done|]. simpl.
  unfold is_int64. apply bool_decide_eq_true. lia.
Qed.

Lemma started_eq (i : interaction) (w : world) :
  started i w =
    served (next_handle w)
      [Execute (next_handle w) CreateTableIfNotExists;
       Commit (next_handle w); Commit (next_handle w)]
      (ensure_table (disk w)) (set_clock (at_time i) w).
Proof. unfold started. by rewrite create_table_eq. Qed.

Lemma main_started (i : interaction) (w : world) :
  main i (set_clock (at_time i) w) =
    (add_section i ;; records_section i) (started i w).
Proof. by rewrite main_after_create, started_eq. Qed.

Lemma main_records (i : interaction) (w : world) (t : table) :
  pressed i ≠ Some AddButton →
  disk w !! ENTRIES = Some t → rows t ≠ [] →
  main i (set_clock (at_time i) w) =
    (update_section i (build_options (select_all t)) ;;
     delete_section i (build_options (select_all t)))
      (listed t (started i w)).
Proof.
  intros Hp Ht Hne. rewrite main_started.
  erewrite bind_inr; [|by apply add_section_idle].
  apply records_section_rows; [|done].
  rewrite started_eq. simpl. by rewrite (ensure_table_some _ t).
Qed.

Lemma started_disk (i : interaction) (w : world) :
  disk (started i w) = ensure_table (disk w).
Proof. by rewrite started_eq. Qed.



(** ** Claims on the script *)







Lemma disk_seq {A B} (m : M A) (k : A → M B) (w : world) :
  (∀ a, keeps_disk (k a)) → disk ((m ≫= k) w).2 = disk (m w).2.
Proof.
  intros Hk. unfold mbind, M_bind, bind.
  destruct (m w) as [[e|a] w1]; simpl; [done|apply Hk].
Qed.

Lemma run_add_disk (i : interaction) (w : world) (t : table) new_id :
  disk w !! ENTRIES = Some t →
  pressed i = Some AddButton → strip (text_input "" (add_name i)) ≠ "" →
  new_rowid t = Some new_id →
  disk (run i w) =
    <[ENTRIES :=
        Table (rows t ++
                 [Row new_id (strip (text_input "" (add_name i)))
                      (age_or_none (default 0 (sent 0 150 (add_age i))))
                      (Some (strip (text_input "" (add_email i))))
                      (Some (at_time i))])
              new_id]> (disk w).
Proof.
  intros Ht Hp Hname Hid. unfold run. rewrite main_started.
  unfold mbind at 1. unfold M_bind at 1. unfold bind at 1.
  rewrite add_section_insert by done.
  erewrite bind_inr; last first.
  { apply (insert_entry_ok _ _ _ _ t new_id); [|done|].
    - rewrite started_disk. by rewrite (ensure_table_some _ t).
    - by apply age_or_none_bindable. }
  unfold st_success at 1.
  match goal with
  | |- disk (records_section i ?w1).2 = _ =>
      pose proof (records_section_reads i w1
                    (Table (rows t ++
                       [Row new_id (strip (text_input "" (add_name i)))
                          (age_or_none (default 0 (sent 0 150 (add_age i))))
                          (Some (strip (text_input "" (add_email i))))
                          (Some (clock (started i w)))]) new_id)) as Hro
  end.
  destruct Hro as (-> & _); [simpl; apply lookup_insert_eq|left..|];
    [by rewrite Hp..|].
  simpl. rewrite started_eq. simpl. by rewrite (ensure_table_some _ t).
Qed.

Lemma run_update_disk (i : interaction) (w : world) (t : table)
    selected_id (r : row) :
  disk w !! ENTRIES = Some t →
  pressed i = Some SaveButton → update_form_drawn i t selected_id r →
  strip (text_input (col_name r) (upd_name i)) ≠ "" →
  disk (run i w) =
    <[ENTRIES :=
        Table (update_rows selected_id
                 (strip (text_input (col_name r) (upd_name i)))
                 (age_or_none
                    (default (default 0 (col_age r)) (sent 0 150 (upd_age i))))
                 (strip (text_input (default "" (col_email r)) (upd_email i)))
                 (rows t))
              (seq t)]> (disk w).
Proof.
  intros Ht Hp (Hne & Hsel & Hid & Hrow & Hage) Hname. unfold run.
  rewrite (main_records i w t) by (done || by rewrite Hp).
  assert (Hd : disk (listed t (started i w)) = disk w).
  { rewrite listed_disk, started_disk. by apply (ensure_table_some _ t). }
  rewrite disk_seq; last first.
  { intros _. apply quiet_keeps_disk, quiet_delete_section.
    left. by rewrite Hp. }
  rewrite (update_section_form i _ _ t selected_id r); try done;
    [|by rewrite Hd].
  cbv zeta. rewrite bool_decide_false by done.
  rewrite disk_seq; last first.
  { intros _. apply keeps_disk_bind; [apply keeps_disk_st_success|].
    intros _. apply keeps_disk_safe_rerun. }
  rewrite update_entry_eq. cbv zeta. unfold fetched_row at 2 3.
  cbn [disk served]. rewrite Hd.
  rewrite run_statement_exec; last first.
  { simpl. rewrite Hid. simpl. by apply age_or_none_bindable. }
  rewrite (exec_entries _ _ _ t Ht). simpl. done.
Qed.

(** C7: the age a form persists is null when the age widget gives zero, and
    is the number the widget gives otherwise.  In the add flow the widget
    is drawn with 0: the new row has age null when the age field was left
    as drawn or set to zero, and the age entered when that is not zero
    (the widget takes the numbers 0 to 150).  In the update flow the row
    with the selected id gets age null when zero was entered, and the age
    entered when it is not zero; when nothing was entered the widget gives
    what it was drawn with, 0 for a row without an age, which stays
    without one, and the row's own age otherwise.  Every other row is as
    it was. *)
Theorem zero_age_is_stored_as_null (i : interaction) (w : world) (t : table) :
  disk w !! ENTRIES = Some t →
  (pressed i = Some AddButton →
   strip (text_input "" (add_name i)) ≠ "" → rowid_left t →
   let age := default 0 (sent 0 150 (add_age i)) in
   ∃ new,
     (rows <$> disk (run i w) !! ENTRIES) = Some (rows t ++ [new]) ∧
     new_rowid t = Some (col_id new) ∧
     (age = 0 → col_age new = None) ∧
     (age ≠ 0 → col_age new = Some age) ∧
     (add_age i = None ∨ add_age i = Some 0 → col_age new = None) ∧
     (∀ v, add_age i = Some v → v ≠ 0 → 0 ≤ v ≤ 150 → col_age new = Some v)) ∧
  (pressed i = Some SaveButton →
   ∀ selected_id r,
     update_form_drawn i t selected_id r →
     strip (text_input (col_name r) (upd_name i)) ≠ "" →
     let u_age := default (default 0 (col_age r)) (sent 0 150 (upd_age i)) in
     ∃ t',
       disk (run i w) !! ENTRIES = Some t' ∧
       length (rows t') = length (rows t) ∧
       ∀ k r0, rows t !! k = Some r0 →
         ∃ r', rows t' !! k = Some r' ∧ col_id r' = col_id r0 ∧
           if decide (col_id r0 = selected_id)
           then (u_age = 0 → col_age r' = None) ∧
                (u_age ≠ 0 → col_age r' = Some u_age) ∧
                (upd_age i = Some 0 → col_age r' = None) ∧
                (∀ v, upd_age i = Some v → v ≠ 0 → 0 ≤ v ≤ 150 →
                   col_age r' = Some v) ∧
                (upd_age i = None → col_age r = None → col_age r' = None) ∧
                (upd_age i = None →
                   col_age r' = age_or_none (default 0 (col_age r)))
           else r' = r0).
Proof.
  intros Ht. split.
  - intros Hp Hname Hleft. destruct (new_rowid_left t Hleft) as [new_id Hid].
    cbv zeta. rewrite (run_add_disk i w t new_id) by done.
    rewrite lookup_insert_eq. simpl. eexists. split; [done|]. simpl.
    split; [done|]. unfold age_or_none.
    split; [intros ->; done|].
    split; [intros Hne; by rewrite bool_decide_false|]. split.
    + intros [->| ->]; done.
    + intros v -> Hv Hb. rewrite sent_accepted by done. simpl.
      by rewrite bool_decide_false.
  - intros Hp selected_id r Hform Hname. cbv zeta.
    rewrite (run_update_disk i w t selected_id r) by done.
    rewrite lookup_insert_eq. eexists. split; [done|]. simpl.
    unfold update_rows. split; [by rewrite length_fmap|].
    intros k r0 Hk. rewrite list_lookup_fmap, Hk. simpl.
    eexists. split; [done|]. case_decide; simpl; [|done].
    split; [done|]. unfold age_or_none.
    split; [intros ->; done|].
    split; [intros Hne; by rewrite bool_decide_false|].
    split; [by intros ->|]. split; [|split].
    + intros v -> Hv Hb. rewrite sent_accepted by done. simpl.
      by rewrite bool_decide_false.
    + by intros -> ->.
    + by intros ->.
Qed.

Lemma zero_age_is_stored_as_null_witness :
  let alice := Row 1 "Alice" (Some 30) (Some "a@x.com")
                 (Some "2024-01-01 10:00:00") in
  let w := run (Interaction "2024-01-01 10:00:00" (Some AddButton)
                  (Some "Alice") (Some 30) (Some "a@x.com") 0 None None None
                  0 false) (boot true) in
  let i := Interaction "2024-01-02 09:00:00" (Some SaveButton) None None None
             0 (Some "Alicia") (Some 0) None 0 false in
  ∃ t', disk (run i w) !! ENTRIES = Some t' ∧
        ∃ r', rows t' !! 0%nat = Some r' ∧ col_id r' = 1 ∧ col_age r' = None.
Proof.
  intros alice w i.
  destruct (zero_age_is_stored_as_null i w (Table [alice] 1)) as [_ Hupd];
    [reflexivity|].
  destruct (Hupd eq_refl 1 alice) as (t' & Ht' & _ & Hrows).
  - split; [discriminate|]. split; [vm_compute; reflexivity|].
    split; [reflexivity|]. split; [reflexivity|].
    vm_compute. split; discriminate.
  - vm_compute. discriminate.
  - exists t'. split; [exact Ht'|].
    destruct (Hrows 0%nat alice eq_refl) as (r' & Hr' & Hid & Hzero & _).
    exists r'. split; [exact Hr'|]. split; [exact Hid|].
    by apply Hzero.
Defined.

(** ** The age bounds as an invariant of the file *)

Lemma exec_keeps_ages now s (db : gmap string table) :
  ages_ok db → age_ok (written_age s) →
  match exec now s db with
  | inr (d, _) => ages_ok d
  | inl _ => True
  end.
Proof.
  intros Hdb Hage. unfold exec.
  destruct (db !! ENTRIES) as [t|] eqn:Ht.
  - specialize (Hdb t Ht).
    assert (Hins : ∀ t' : table, Forall age_in_range (rows t') →
              ages_ok (<[ENTRIES := t']> db)).
    { intros t' Ht' t'' Hl. rewrite lookup_insert_eq in Hl. by injection Hl as <-. }
    destruct s; simpl in *; try (apply Hins; done).
    + unfold insert_row. destruct (new_rowid t); [|done].
      apply Hins. simpl. apply Forall_app. split; [done|].
      constructor; [exact Hage|constructor].
    + apply Hins. simpl. unfold update_rows. apply Forall_fmap.
      eapply Forall_impl; [exact Hdb|]. intros r Hr. simpl.
      case_decide; [exact Hage|done].
    + apply Hins. simpl. by apply Forall_delete_rows.
  - destruct s; try done. intros t Hl. rewrite lookup_insert_eq in Hl.
    injection Hl as <-. constructor.
Qed.

Lemma keeps_disk_keeps {A} (m : M A) :
  keeps_disk m → keeps (λ w, ages_ok (disk w)) m (λ _, True).
Proof. intros Hm w Hw. by rewrite Hm. Qed.

Lemma keeps_weaken {A} (I : world → Prop) (m : M A) (Q Q' : A → Prop) :
  (∀ a, Q a → Q' a) → keeps I m Q → keeps I m Q'.
Proof.
  intros HQ Hm w Hw. destruct (Hm w Hw) as [HI Hres]. split; [done|].
  intros a Ha. by apply HQ, Hres.
Qed.

Lemma keeps_bind {A B} (I : world → Prop) (m : M A) (k : A → M B) Q R :
  keeps I m Q → (∀ a, Q a → keeps I (k a) R) → keeps I (m ≫= k) R.
Proof.
  intros Hm Hk w Hw. unfold mbind, M_bind, bind.
  destruct (Hm w Hw) as [HI Hres].
  destruct (m w) as [[e|a] w1]; simpl in *; [by split|].
  by apply (Hk a (Hres a eq_refl) w1).
Qed.

Lemma keeps_ret {A} (I : world → Prop) (a : A) (Q : A → Prop) :
  Q a → keeps I (mret a) Q.
Proof. intros Ha w Hw. split; [done|]. by intros a' [= <-]. Qed.

Ltac keeps_by_exec Hage :=
  let w := fresh "w" in let Hw := fresh "Hw" in
  intros w Hw;
  rewrite ?create_table_eq, ?insert_entry_eq, ?update_entry_eq,
    ?delete_entry_eq; cbv zeta;
  match goal with
  | |- context [run_statement ?now ?s (disk w)] =>
      let Hex := fresh "Hex" in let Hr := fresh "Hr" in
      pose proof (exec_keeps_ages now s (disk w) Hw Hage) as Hex;
      destruct (run_statement now s (disk w)) as [?|[? ?]] eqn:Hr; simpl;
        [by split|];
      apply run_statement_inr in Hr as [Hr _]; rewrite Hr in Hex; by split
  end.

Lemma age_ok_none : age_ok None.
Proof. intros a. discriminate. Qed.

Lemma keeps_create_table :
  keeps (λ w, ages_ok (disk w)) create_table (λ _, True).
Proof.
  intros w Hw. rewrite create_table_eq. simpl. split; [|done].
  pose proof (exec_keeps_ages "" CreateTableIfNotExists (disk w) Hw age_ok_none)
    as Hex.
  by rewrite exec_create in Hex.
Qed.

Lemma keeps_insert_entry name age email :
  age_ok age →
  keeps (λ w, ages_ok (disk w)) (insert_entry name age email) (λ _, True).
Proof. intros Hage. keeps_by_exec Hage. Qed.

Lemma keeps_update_entry entry_id name age email :
  age_ok age →
  keeps (λ w, ages_ok (disk w)) (update_entry entry_id name age email)
    (λ _, True).
Proof. intros Hage. keeps_by_exec Hage. Qed.

Lemma keeps_delete_entry entry_id :
  keeps (λ w, ages_ok (disk w)) (delete_entry entry_id) (λ _, True).
Proof. keeps_by_exec age_ok_none. Qed.

Lemma keeps_get_entry_by_id entry_id :
  keeps (λ w, ages_ok (disk w)) (get_entry_by_id entry_id)
    (λ row, ∀ r, row = Some r → age_in_range r).
Proof.
  intros w Hw. rewrite get_entry_by_id_eq. cbv zeta.
  destruct (disk w !! ENTRIES) as [t|] eqn:Ht;
    [|rewrite run_statement_no_table by done; by split].
  rewrite (run_statement_entries _ _ _ t Ht).
  destruct (bindable _); simpl; [|by split].
  split; [done|]. intros row [= <-] r Hr.
  unfold fetchone in Hr. simpl in Hr. apply head_Some_elem_of in Hr.
  unfold select_where_id in Hr. apply list_elem_of_filter in Hr as [_ Hr].
  specialize (Hw t Ht). rewrite Forall_forall in Hw. by apply Hw.
Qed.

(** What a number widget gives is within the bounds it was given. *)
Lemma keeps_number_input (I : world → Prop) lo hi v typed :
  keeps I (number_input lo hi v typed) (λ a, lo ≤ a ≤ hi).
Proof.
  intros w Hw. unfold number_input. case_bool_decide; [|by split].
  split; [done|]. intros a [= <-]. by apply sent_in_bounds.
Qed.

Lemma age_ok_age_or_none a : 0 ≤ a ≤ 150 → age_ok (age_or_none a).
Proof.
  intros Ha. unfold age_or_none. case_bool_decide; [apply age_ok_none|].
  by intros a' [= <-].
Qed.

Lemma keeps_quiet {A} (m : M A) :
  quiet m → keeps (λ w, ages_ok (disk w)) m (λ _, True).
Proof. intros Hq. by apply keeps_disk_keeps, quiet_keeps_disk. Qed.

Lemma keeps_add_section (i : interaction) :
  keeps (λ w, ages_ok (disk w)) (add_section i) (λ _, True).
Proof.
  unfold add_section.
  eapply keeps_bind; [by apply keeps_number_input|]. intros age Hage.
  destruct (form_submit_button AddButton i); [|by apply keeps_ret].
  case_bool_decide; [apply keeps_quiet, quiet_st_error|].
  eapply keeps_bind; [by apply keeps_insert_entry, age_ok_age_or_none|].
  intros new_id _. apply keeps_disk_keeps, keeps_disk_st_success.
Qed.

Lemma keeps_update_section (i : interaction) options :
  keeps (λ w, ages_ok (disk w)) (update_section i options) (λ _, True).
Proof.
  unfold update_section.
  destruct (next_id _ _) as [sid|]; [|by apply keeps_ret].
  eapply keeps_bind; [apply keeps_get_entry_by_id|]. intros [r|] Hr;
    [|by apply keeps_ret].
  eapply keeps_bind; [by apply keeps_number_input|]. intros u_age Hage.
  destruct (form_submit_button SaveButton i); [|by apply keeps_ret].
  case_bool_decide; [apply keeps_quiet, quiet_st_error|].
  eapply keeps_bind; [by apply keeps_update_entry, age_ok_age_or_none|].
  intros _ _. apply keeps_disk_keeps, keeps_disk_bind;
    [apply keeps_disk_st_success|]. intros _. apply keeps_disk_safe_rerun.
Qed.

Lemma keeps_delete_section (i : interaction) options :
  keeps (λ w, ages_ok (disk w)) (delete_section i options) (λ _, True).
Proof.
  unfold delete_section.
  destruct (form_submit_button DeleteButton i); [|by apply keeps_ret].
  destruct (negb _); [apply keeps_quiet, quiet_st_error|].
  eapply keeps_bind; [apply keeps_delete_entry|].
  intros _ _. apply keeps_disk_keeps, keeps_disk_bind;
    [apply keeps_disk_st_success|]. intros _. apply keeps_disk_safe_rerun.
Qed.

Lemma keeps_main (i : interaction) :
  keeps (λ w, ages_ok (disk w)) (main i) (λ _, True).
Proof.
  unfold main.
  eapply keeps_bind; [apply keeps_create_table|]. intros _ _.
  eapply keeps_bind; [by apply keeps_add_section|]. intros _ _.
  unfold records_section.
  eapply keeps_bind; [apply keeps_quiet, quiet_view_all|]. intros df _.
  eapply keeps_bind.
  { apply keeps_quiet. case_bool_decide;
      [apply quiet_st_info|apply quiet_st_dataframe]. }
  intros _ _. case_bool_decide; [by apply keeps_ret|].
  eapply keeps_bind; [by apply keeps_update_section|]. intros _ _.
  apply keeps_delete_section.
Qed.

Lemma run_keeps_ages (i : interaction) (w : world) :
  ages_ok (disk w) → ages_ok (disk (run i w)).
Proof.
  intros Hw. unfold run.
  by apply (keeps_main i (set_clock (at_time i) w)).
Qed.

(** C8: every persisted age is null or an integer from 0 to 150, after
    every run of the script, whatever the user does to the forms: each form
    takes the age from a number widget that it draws with the bounds 0 and
    150, and what the widget gives is within its bounds.  The ages are
    within 0 to 150 after any sequence of runs from the first start, and
    from any file whose ages are within these bounds. *)
Theorem persisted_ages_within_bounds (script_runs : list interaction)
    (w : world) :
  (ages_ok (disk w) → ages_ok (disk (runs script_runs w))) ∧
  (∀ b t r a,
     disk (runs script_runs (boot b)) !! ENTRIES = Some t →
     r ∈ rows t → col_age r = Some a → 0 ≤ a ≤ 150).
Proof.
  assert (Hgen : ∀ w0, ages_ok (disk w0) → ages_ok (disk (runs script_runs w0))).
  { induction script_runs as [|i rest IH]; intros w0 Hw0; [done|].
    simpl. apply IH. by apply run_keeps_ages. }
  split; [apply Hgen|].
  intros b t r a Ht Hr Ha.
  assert (Hboot : ages_ok (disk (boot b))) by (intros t0 Ht0; done).
  specialize (Hgen (boot b) Hboot t Ht). rewrite Forall_forall in Hgen.
  by apply (Hgen r Hr a).
Qed.

Lemma persisted_ages_within_bounds_witness :
  let script_runs :=
    [Interaction "2024-01-01 10:00:00" (Some AddButton) (Some "Alice")
       (Some 30) (Some "a@x.com") 0 None None None 0 false;
     Interaction "2024-01-02 09:00:00" (Some SaveButton) None None None
       0 (Some "Alicia") (Some 150) None 0 false;
     Interaction "2024-01-03 09:00:00" (Some AddButton) (Some "Bob")
       (Some 151) (Some "b@x.com") 0 None None None 0 false] in
  ∃ t, disk (runs script_runs (boot true)) !! ENTRIES = Some t ∧
       Forall age_in_range (rows t) ∧ col_age <$> rows t = [Some 150; None].
Proof.
  intros script_runs.
  destruct (persisted_ages_within_bounds script_runs (boot true))
    as [Hinv _].
  eexists. split; [vm_compute; reflexivity|]. split; [|reflexivity].
  apply (Hinv (λ t0 Ht0, ltac:(done))). vm_compute. reflexivity.
Defined.

(** * Further properties of the code *)

(** ** Reading one entry *)

Lemma filter_no_match (P : row → Prop) `{!∀ r, Decision (P r)}
    (rs : list row) :
  (∀ r, r ∈ rs → ¬ P r) → filter P rs = [].
Proof.
  intros Hno. apply elem_of_nil_inv. intros r Hr.
  apply list_elem_of_filter in Hr as [HP Hr]. by apply (Hno r).
Qed.

Lemma filter_unique_id entry_id (rs : list row) (r : row) :
  NoDup (col_id <$> rs) → r ∈ rs → col_id r = entry_id →
  filter (λ r, col_id r = entry_id) rs = [r].
Proof.
  intros Hnd Hin <-. induction rs as [|r0 rs IH]; [by inversion Hin|].
  rewrite fmap_cons in Hnd. apply NoDup_cons in Hnd as [Hr0 Hnd].
  assert (Hrest : ∀ r', r' ∈ rs → col_id r' ≠ col_id r0).
  { intros r' Hr' Heq. apply Hr0. rewrite <- Heq.
    apply list_elem_of_fmap. by exists r'. }
  apply elem_of_cons in Hin as [->|Hin].
  - rewrite filter_cons_True by done. f_equal. by apply filter_no_match.
  - rewrite filter_cons_False; [by apply IH|].
    intros Heq. by apply (Hrest r Hin).
Qed.

(** X1: on a table that exists [get_entry_by_id], with an id that the
    engine can hold (64 bits), never raises and leaves the file as it was.
    It returns None exactly when no row has the id; a row it returns is a
    row of the table with that id; and as ids are unique it returns the row
    that has the id.  With an id outside the 64 bits it raises
    [OverflowError]. *)
Theorem get_entry_by_id_found_or_none (entry_id : Z) (w : world) (t : table) :
  disk w !! ENTRIES = Some t →
  (is_int64 entry_id = true →
   ∃ row w',
     get_entry_by_id entry_id w = (inr row, w') ∧ disk w' = disk w ∧
     (row = None ↔ ∀ r, r ∈ rows t → col_id r ≠ entry_id) ∧
     (∀ r, row = Some r → r ∈ rows t ∧ col_id r = entry_id) ∧
     (NoDup (ids t) → ∀ r, r ∈ rows t → col_id r = entry_id → row = Some r)) ∧
  (is_int64 entry_id = false →
   ∃ w', get_entry_by_id entry_id w = (inl OverflowError, w') ∧
         disk w' = disk w).
Proof.
  intros Ht. rewrite get_entry_by_id_eq. cbv zeta.
  rewrite (run_statement_entries _ _ _ t Ht). simpl.
  split; intros ->; [|by eexists]. simpl. eexists _, _.
  split; [done|]. split; [done|]. unfold fetchone, select_where_id. simpl.
  split; [|split].
  - rewrite head_None. split.
    + intros Hnil r Hr Hid.
      assert (Hin : r ∈ filter (λ r, col_id r = entry_id) (rows t))
        by by apply list_elem_of_filter.
      rewrite Hnil in Hin. by inversion Hin.
    + intros Hno. apply elem_of_nil_inv. intros r Hr.
      apply list_elem_of_filter in Hr as [Hid Hr]. by apply (Hno r).
  - intros r Hr. apply head_Some_elem_of in Hr.
    apply list_elem_of_filter in Hr as [? ?]. done.
  - intros Hnd r Hr Hid.
    by rewrite (filter_unique_id entry_id (rows t) r Hnd Hr Hid).
Qed.

Lemma get_entry_by_id_found_or_none_witness :
  let w := (three_inserts "a" "b" "c" None None None "" "" "" (boot true)).2 in
  ∃ row w', get_entry_by_id 7 w = (inr row, w') ∧ row = None.
Proof.
  intros w.
  destruct (get_entry_by_id_found_or_none 7 w
              (Table [Row 1 "a" None (Some "") (Some "");
                      Row 2 "b" None (Some "") (Some "");
                      Row 3 "c" None (Some "") (Some "")] 3))
    as [Hok _]; [reflexivity|].
  destruct (Hok eq_refl) as (row & w' & Hrun & _ & Hnone & _).
  exists row, w'. split; [exact Hrun|]. apply Hnone.
  intros r Hr. repeat (apply elem_of_cons in Hr as [->|Hr]; [discriminate|]).
  by inversion Hr.
Defined.

(** ** Errors of the data-access functions *)

(** X2: while the file has no [entries] table, each of the five
    data-access functions raises: the statement does not compile, "no such
    table", whatever its parameters; [view_all] raises pandas'
    [DatabaseError] from it, after pandas has rolled back once itself; the
    connection rolls back and stays open, and the file is as it was.  Once
    [create_table] has run, [view_all] returns the empty listing and
    [get_entry_by_id], of an id that the engine can hold, returns None. *)
Theorem no_table_raises (w : world) :
  disk w !! ENTRIES = None →
  let h := next_handle w in
  let failed (s : statement) :=
    (@inl exn unit (NoSuchTable ENTRIES),
     served h [Execute h s; Rollback h] (disk w) w) in
  (∀ name age email,
     (insert_entry name age email w).2 = (failed (InsertInto name age email)).2
     ∧ (insert_entry name age email w).1 = inl (NoSuchTable ENTRIES)) ∧
  (view_all w =
     (inl (DatabaseError (NoSuchTable ENTRIES)),
      served h [Execute h SelectAll; Rollback h; Rollback h] (disk w) w)) ∧
  (∀ entry_id,
     (get_entry_by_id entry_id w).2 = (failed (SelectWhereId entry_id)).2 ∧
     (get_entry_by_id entry_id w).1 = inl (NoSuchTable ENTRIES)) ∧
  (∀ entry_id name age email,
     update_entry entry_id name age email w
       = failed (UpdateWhereId entry_id name age email)) ∧
  (∀ entry_id, delete_entry entry_id w = failed (DeleteWhereId entry_id)) ∧
  (view_all (create_table w).2).1 = inr [] ∧
  (∀ entry_id, is_int64 entry_id = true →
     (get_entry_by_id entry_id (create_table w).2).1 = inr None).
Proof.
  intros Ht h failed. subst failed h. cbv beta.
  repeat split; intros;
    rewrite ?insert_entry_eq, ?view_all_eq, ?get_entry_by_id_eq,
      ?update_entry_eq, ?delete_entry_eq; cbv zeta;
    try (rewrite run_statement_no_table by done; reflexivity).
  - rewrite create_table_disk. unfold ensure_table. rewrite Ht.
    erewrite run_statement_entries by apply lookup_insert_eq. reflexivity.
  - rewrite create_table_disk. unfold ensure_table. rewrite Ht.
    erewrite run_statement_entries by apply lookup_insert_eq. simpl.
    by rewrite H.
Qed.

Lemma no_table_raises_witness :
  (view_all (boot true)).1 = inl (DatabaseError (NoSuchTable ENTRIES)) ∧
  (view_all (create_table (boot true)).2).1 = inr [].
Proof.
  destruct (no_table_raises (boot true)) as (_ & Hview & _ & _ & _ & Hok & _).
  - reflexivity.
  - split; [by rewrite Hview|exact Hok].
Defined.



(** ** How the data-access functions compose *)




Lemma filter_id_delete_rows_other entry_id other (rs : list row) :
  other ≠ entry_id →
  filter (λ r, col_id r = other) (delete_rows (Some entry_id) rs)
    = filter (λ r, col_id r = other) rs.
Proof.
  intros Hne. unfold delete_rows. induction rs as [|r rs IH]; [done|].
  destruct (decide (col_id r = entry_id)) as [Heq|Hneq].
  - rewrite filter_cons_False by (intros H; apply H; by rewrite Heq).
    rewrite (filter_cons_False (λ r, col_id r = other)) by congruence. done.
  - rewrite filter_cons_True by congruence.
    destruct (decide (col_id r = other)).
    + rewrite !filter_cons_True by done. by rewrite IH.
    + rewrite !filter_cons_False by done. done.
Qed.

(** X5: after [delete_entry] of an id that the engine can hold,
    [get_entry_by_id] of that id returns None, and of any other id what it
    returned before; deleting the same id once more changes nothing. *)
Theorem delete_then_read (entry_id : Z) (w : world) (t : table) :
  disk w !! ENTRIES = Some t → is_int64 entry_id = true →
  let w1 := (delete_entry (Some entry_id) w).2 in
  (get_entry_by_id entry_id w1).1 = inr None ∧
  (∀ other, other ≠ entry_id →
     (get_entry_by_id other w1).1 = (get_entry_by_id other w).1) ∧
  disk (delete_entry (Some entry_id) w1).2 = disk w1.
Proof.
  intros Ht Hid w1. subst w1. rewrite delete_entry_eq. cbv zeta.
  rewrite (run_statement_entries _ _ _ t Ht). simpl. rewrite Hid. simpl.
  assert (Hgone : ∀ r, r ∈ delete_rows (Some entry_id) (rows t) →
                       Some (col_id r) ≠ Some entry_id).
  { intros r Hr. unfold delete_rows in Hr.
    by apply list_elem_of_filter in Hr as [? _]. }
  split; [|split].
  - erewrite get_entry_by_id_ok; [|simpl; apply lookup_insert_eq|done].
    simpl. unfold select_where_id. simpl.
    rewrite filter_no_match; [done|].
    intros r Hr Heq. apply (Hgone r Hr). by rewrite Heq.
  - intros other Hne. rewrite !get_entry_by_id_eq. cbv zeta.
    erewrite run_statement_entries by (simpl; apply lookup_insert_eq).
    rewrite (run_statement_entries _ _ _ t Ht). simpl.
    destruct (is_int64 other); [|done]. simpl.
    unfold fetchone, select_where_id. simpl.
    by rewrite filter_id_delete_rows_other.
  - rewrite delete_entry_eq. cbv zeta.
    erewrite run_statement_entries by (simpl; apply lookup_insert_eq).
    simpl. rewrite Hid. simpl.
    rewrite delete_rows_no_match by done. by rewrite insert_insert_eq.
Qed.

Lemma delete_then_read_witness :
  let w := (three_inserts "a" "b" "c" None None None "" "" "" (boot true)).2 in
  (get_entry_by_id 2 (delete_entry (Some 2) w).2).1 = inr None.
Proof.
  intros w.
  apply (delete_then_read 2 w
           (Table [Row 1 "a" None (Some "") (Some "");
                   Row 2 "b" None (Some "") (Some "");
                   Row 3 "c" None (Some "") (Some "")] 3)).
  - reflexivity.
  - reflexivity.
Defined.





(** ** The record pickers *)

Lemma has_space_pretty_N_go (x : N) (s : string) :
  has_space (pretty_N_go x s) = has_space s.
Proof.
  revert s. induction (N.lt_wf_0 x) as [x _ IH]. intros s.
  assert (x = 0 ∨ 0 < x)%N as [->|Hx] by lia.
  - by rewrite pretty_N_go_0.
  - rewrite pretty_N_go_step by done. rewrite IH by (by apply N.div_lt).
    simpl. unfold pretty_N_char. by repeat case_match.
Qed.

Lemma has_space_pretty_N (x : N) : has_space (pretty x) = false.
Proof.
  unfold pretty, pretty_N. case_decide; [done|].
  by rewrite has_space_pretty_N_go.
Qed.

Lemma has_space_pretty_Z (x : Z) : has_space (pretty x) = false.
Proof.
  unfold pretty, pretty_Z. destruct x as [|p|p]; [done| |].
  - apply (has_space_pretty_N (Npos p)).
  - exact (has_space_pretty_N (Npos p)).
Qed.

Lemma before_first_space (s1 s2 t1 t2 : string) :
  has_space s1 = false → has_space s2 = false →
  s1 +:+ String Ascii.Space t1 = s2 +:+ String Ascii.Space t2 → s1 = s2.
Proof.
  revert s2. induction s1 as [|c1 s1 IH]; intros [|c2 s2] H1 H2 Heq; try done.
  - exfalso. injection Heq as Hc _. simpl in H2.
    rewrite <- Hc in H2. by rewrite bool_decide_true in H2.
  - exfalso. injection Heq as Hc _. simpl in H1.
    rewrite Hc in H1. by rewrite bool_decide_true in H1.
  - injection Heq as -> Heq. simpl in H1, H2.
    apply orb_false_iff in H1 as [_ H1]. apply orb_false_iff in H2 as [_ H2].
    f_equal. by apply IH.
Qed.

Lemma option_text_id (r1 r2 : row) :
  option_text r1 = option_text r2 → col_id r1 = col_id r2.
Proof.
  unfold option_text. intros Heq.
  apply (inj pretty). eapply before_first_space;
    [apply has_space_pretty_Z|apply has_space_pretty_Z|exact Heq].
Qed.

Lemma filter_no_match_pairs (P : string * Z → Prop) `{!∀ o, Decision (P o)}
    (os : list (string * Z)) :
  (∀ o, o ∈ os → ¬ P o) → filter P os = [].
Proof.
  intros Hno. apply elem_of_nil_inv. intros o Ho.
  apply list_elem_of_filter in Ho as [HP Ho]. by apply (Hno o).
Qed.

Lemma build_options_text (df : list row) :
  build_options df = (λ r, (option_text r, col_id r)) <$> df.
Proof. done. Qed.

Lemma next_id_build_options (df : list row) (k : nat) :
  next_id (selectbox (fst <$> build_options df) k) (build_options df)
    = col_id <$> df !! k.
Proof.
  rewrite build_options_text. unfold next_id, selectbox.
  rewrite <- list_fmap_compose, list_lookup_fmap.
  destruct (df !! k) as [r|] eqn:Hk; simpl.
  - destruct (filter _ _) as [|o rest] eqn:Hf.
    + exfalso.
      assert (Hin : (option_text r, col_id r) ∈
                filter (λ o : string * Z, Some o.1 = Some (option_text r))
                  ((λ r, (option_text r, col_id r)) <$> df)).
      { apply list_elem_of_filter. split; [done|].
        apply list_elem_of_fmap. exists r. split; [done|].
        by eapply list_elem_of_lookup_2. }
      rewrite Hf in Hin. by inversion Hin.
    + simpl. f_equal.
      assert (Hin : o ∈ filter (λ o : string * Z, Some o.1 = Some (option_text r))
                  ((λ r, (option_text r, col_id r)) <$> df))
        by (rewrite Hf; by left).
      apply list_elem_of_filter in Hin as [[= Htext] Hin].
      apply list_elem_of_fmap in Hin as (r' & -> & _). simpl in *.
      by apply option_text_id.
  - rewrite filter_no_match_pairs; [done|]. by intros o _ [=].
Qed.

(** X7: the record pickers cannot pick the wrong row.  Whatever the names
    are (two rows may have the same name, and a name may itself hold the
    separator), the id worked out from the text of the [k]-th choice is the
    id of the [k]-th listed row; a choice outside the list gives no id. *)
Theorem picker_gives_id_of_picked_row (df : list row) (k : nat) :
  next_id (selectbox (fst <$> build_options df) k) (build_options df)
    = col_id <$> df !! k.
Proof. apply next_id_build_options. Qed.

(** ** Invariants of the file over the runs of the script *)

Section Invariant.
Variable J : gmap string table → Prop.
Hypothesis J_closed : exec_closed J.

Lemma inv_keeps_disk {A} (m : M A) : keeps_disk m → keeps (on_disk J) m (λ _, True).
Proof. intros Hm w Hw. unfold on_disk. by rewrite Hm. Qed.

Lemma inv_quiet {A} (m : M A) : quiet m → keeps (on_disk J) m (λ _, True).
Proof. intros Hq. by apply inv_keeps_disk, quiet_keeps_disk. Qed.

Lemma inv_statement (s : statement) (w : world) :
  on_disk J w → from_forms s →
  match exec (clock w) s (disk w) with
  | inr (d, _) => J d
  | inl _ => True
  end.
Proof. intros Hw Hs. by apply J_closed. Qed.

Lemma inv_run_statement (s : statement) (w : world) :
  on_disk J w → from_forms s →
  match run_statement (clock w) s (disk w) with
  | inr (d, _) => J d
  | inl _ => True
  end.
Proof.
  intros Hw Hs. pose proof (inv_statement s w Hw Hs) as Hex.
  destruct (run_statement _ _ _) as [?|[d c]] eqn:Hr; [done|].
  apply run_statement_inr in Hr as [Hr _]. by rewrite Hr in Hex.
Qed.

Lemma inv_create_table : keeps (on_disk J) create_table (λ _, True).
Proof.
  intros w Hw. rewrite create_table_eq. simpl. split; [|done]. unfold on_disk.
  assert (Hs : from_forms CreateTableIfNotExists)
    by (split; [apply age_ok_none|done]).
  pose proof (inv_statement _ w Hw Hs) as Hex.
  by rewrite exec_create in Hex.
Qed.

Lemma inv_insert_entry name age email :
  age_ok age → name ≠ "" →
  keeps (on_disk J) (insert_entry name age email) (λ _, True).
Proof.
  intros Hage Hname w Hw. rewrite insert_entry_eq. cbv zeta.
  assert (Hs : from_forms (InsertInto name age email))
    by (split; [done|by intros [= ?]]).
  pose proof (inv_run_statement _ w Hw Hs) as Hex.
  destruct (run_statement _ _ _) as [?|[? ?]]; by split.
Qed.

Lemma inv_update_entry entry_id name age email :
  age_ok age → name ≠ "" →
  keeps (on_disk J) (update_entry entry_id name age email) (λ _, True).
Proof.
  intros Hage Hname w Hw. rewrite update_entry_eq. cbv zeta.
  assert (Hs : from_forms (UpdateWhereId entry_id name age email))
    by (split; [done|by intros [= ?]]).
  pose proof (inv_run_statement _ w Hw Hs) as Hex.
  destruct (run_statement _ _ _) as [?|[? ?]]; by split.
Qed.

Lemma inv_delete_entry entry_id :
  keeps (on_disk J) (delete_entry entry_id) (λ _, True).
Proof.
  intros w Hw. rewrite delete_entry_eq. cbv zeta.
  assert (Hs : from_forms (DeleteWhereId entry_id))
    by (split; [apply age_ok_none|done]).
  pose proof (inv_run_statement _ w Hw Hs) as Hex.
  destruct (run_statement _ _ _) as [?|[? ?]]; by split.
Qed.

Lemma inv_add_section (i : interaction) :
  keeps (on_disk J) (add_section i) (λ _, True).
Proof.
  unfold add_section.
  eapply keeps_bind; [by apply keeps_number_input|]. intros age Hage.
  destruct (form_submit_button AddButton i); [|by apply keeps_ret].
  case_bool_decide; [apply inv_quiet, quiet_st_error|].
  eapply keeps_bind.
  { apply inv_insert_entry; [by apply age_ok_age_or_none|done]. }
  intros new_id _. apply inv_keeps_disk, keeps_disk_st_success.
Qed.

Lemma inv_update_section (i : interaction) options :
  keeps (on_disk J) (update_section i options) (λ _, True).
Proof.
  unfold update_section.
  destruct (next_id _ _) as [sid|]; [|by apply keeps_ret].
  eapply keeps_bind; [apply inv_quiet, quiet_get_entry_by_id|].
  intros [r|] _; [|by apply keeps_ret].
  eapply keeps_bind; [by apply keeps_number_input|]. intros u_age Hage.
  destruct (form_submit_button SaveButton i); [|by apply keeps_ret].
  case_bool_decide; [apply inv_quiet, quiet_st_error|].
  eapply keeps_bind.
  { apply inv_update_entry; [by apply age_ok_age_or_none|done]. }
  intros _ _. apply inv_keeps_disk, keeps_disk_bind;
    [apply keeps_disk_st_success|]. intros _. apply keeps_disk_safe_rerun.
Qed.

Lemma inv_delete_section (i : interaction) options :
  keeps (on_disk J) (delete_section i options) (λ _, True).
Proof.
  unfold delete_section.
  destruct (form_submit_button DeleteButton i); [|by apply keeps_ret].
  destruct (negb _); [apply inv_quiet, quiet_st_error|].
  eapply keeps_bind; [apply inv_delete_entry|].
  intros _ _. apply inv_keeps_disk, keeps_disk_bind;
    [apply keeps_disk_st_success|]. intros _. apply keeps_disk_safe_rerun.
Qed.

Lemma inv_main (i : interaction) : keeps (on_disk J) (main i) (λ _, True).
Proof.
  unfold main.
  eapply keeps_bind; [apply inv_create_table|]. intros _ _.
  eapply keeps_bind; [by apply inv_add_section|]. intros _ _.
  unfold records_section.
  eapply keeps_bind; [apply inv_quiet, quiet_view_all|]. intros df _.
  eapply keeps_bind.
  { apply inv_quiet. case_bool_decide;
      [apply quiet_st_info|apply quiet_st_dataframe]. }
  intros _ _. case_bool_decide; [by apply keeps_ret|].
  eapply keeps_bind; [by apply inv_update_section|]. intros _ _.
  apply inv_delete_section.
Qed.

Lemma inv_runs (script_runs : list interaction) (w : world) :
  J (disk w) → J (disk (runs script_runs w)).
Proof.
  revert w. induction script_runs as [|i rest IH]; intros w Hw; [done|].
  simpl. apply IH. unfold run.
  by apply (inv_main i (set_clock (at_time i) w)).
Qed.
End Invariant.

Lemma names_ok_closed : exec_closed names_ok.
Proof.
  intros now s db Hdb [_ Hname]. unfold exec.
  destruct (db !! ENTRIES) as [t|] eqn:Ht.
  - specialize (Hdb t Ht).
    assert (Hins : ∀ t' : table, Forall (λ r, col_name r ≠ "") (rows t') →
              names_ok (<[ENTRIES := t']> db)).
    { intros t' Ht' t'' Hl. rewrite lookup_insert_eq in Hl.
      by injection Hl as <-. }
    destruct s; simpl in *; try (apply Hins; done).
    + unfold insert_row. destruct (new_rowid t); [|done].
      apply Hins. simpl. apply Forall_app. split; [done|].
      constructor; [|constructor]. simpl. by intros ->.
    + apply Hins. simpl. unfold update_rows. apply Forall_fmap.
      eapply Forall_impl; [exact Hdb|]. intros r Hr. simpl.
      case_decide; [|done]. simpl. by intros ->.
    + apply Hins. simpl. by apply Forall_delete_rows.
  - destruct s; try done. intros t Hl. rewrite lookup_insert_eq in Hl.
    injection Hl as <-. constructor.
Qed.

Lemma keys_ok_closed : exec_closed keys_ok.
Proof.
  intros now s db Hdb _. unfold exec.
  destruct (db !! ENTRIES) as [t|] eqn:Ht.
  - destruct (Hdb t Ht) as [Hcov Hnd]. unfold seq_covers, ids in *.
    assert (Hins : ∀ t' : table, seq_covers t' ∧ NoDup (ids t') →
              keys_ok (<[ENTRIES := t']> db)).
    { intros t' Ht' t'' Hl. rewrite lookup_insert_eq in Hl.
      by injection Hl as <-. }
    destruct s; simpl in *; try (apply Hins; done).
    + unfold insert_row. destruct (new_rowid t) as [i|] eqn:Hi; [|done].
      destruct (new_rowid_fresh t i Hi) as [Hseq Hids].
      apply Hins. unfold seq_covers, ids. simpl. split.
      * apply Forall_app. split; [|repeat constructor; simpl; lia].
        eapply Forall_impl; [exact Hids|]. simpl. intros; lia.
      * rewrite fmap_app. apply NoDup_app. split; [done|]. simpl.
        split; [|apply NoDup_singleton].
        intros x Hx Hin. apply list_elem_of_singleton in Hin as ->.
        apply list_elem_of_fmap in Hx as (r & -> & Hr).
        rewrite Forall_forall in Hids. specialize (Hids r Hr). lia.
    + apply Hins. unfold seq_covers, ids. simpl.
      rewrite ids_update_rows. split; [|done].
      unfold update_rows. apply Forall_fmap.
      eapply Forall_impl; [exact Hcov|]. intros r Hr. simpl. by case_decide.
    + apply Hins. unfold seq_covers, ids. simpl.
      split; [by apply Forall_delete_rows|].
      assert (Hsub : col_id <$> delete_rows entry_id (rows t)
                     `sublist_of` col_id <$> rows t)
        by (apply fmap_sublist; unfold delete_rows; apply sublist_filter).
      by eapply sublist_NoDup.
  - destruct s; try done. intros t Hl. rewrite lookup_insert_eq in Hl.
    injection Hl as <-. split; constructor.
Qed.

(** X8: no entry is ever stored with an empty name.  From the first start,
    and from any file that holds no empty name, after every sequence of
    script runs every row of the table has a name that is not empty: the
    add form and the update form both store the stripped name, and only
    when it is not empty. *)
Theorem names_never_empty (script_runs : list interaction) (w : world) :
  (names_ok (disk w) → names_ok (disk (runs script_runs w))) ∧
  (∀ b, names_ok (disk (runs script_runs (boot b)))).
Proof.
  split.
  - apply inv_runs, names_ok_closed.
  - intros b. apply inv_runs; [apply names_ok_closed|].
    intros t Ht. done.
Qed.

(** X9: the primary key holds over the runs of the script.  From the first
    start, and from any file where it holds, after every sequence of script
    runs no two rows of the table have the same id and no row has an id
    above [seq], so that the next insert gets an id no row ever had. *)
Theorem ids_stay_unique (script_runs : list interaction) (w : world) :
  (keys_ok (disk w) → keys_ok (disk (runs script_runs w))) ∧
  (∀ b, keys_ok (disk (runs script_runs (boot b)))).
Proof.
  split.
  - apply inv_runs, keys_ok_closed.
  - intros b. apply inv_runs; [apply keys_ok_closed|].
    intros t Ht. done.
Qed.

Lemma names_never_empty_witness :
  let script_runs :=
    [Interaction "2024-01-01 10:00:00" (Some AddButton) (Some " Alice ")
       (Some 30) (Some "a@x.com") 0 None None None 0 false;
     Interaction "2024-01-01 10:01:00" (Some AddButton)
       (Some (String (Ascii.ascii_of_N 194) (String (Ascii.ascii_of_N 160) " ")))
       None None 0 None None None 0 false;
     Interaction "2024-01-02 09:00:00" (Some SaveButton) None None None
       0 (Some " ") None None 0 false] in
  names_ok (disk (runs script_runs (boot true))) ∧
  (col_name <$> select_all
     (default empty_table (disk (runs script_runs (boot true)) !! ENTRIES)))
    = ["Alice"].
Proof.
  intros script_runs.
  destruct (names_never_empty script_runs (boot true)) as [_ Hboot].
  split; [apply Hboot|]. vm_compute. reflexivity.
Defined.

Lemma ids_stay_unique_witness :
  let script_runs :=
    [Interaction "2024-01-01 10:00:00" (Some AddButton) (Some "Alice")
       (Some 30) (Some "a@x.com") 0 None None None 0 false;
     Interaction "2024-01-01 10:01:00" (Some AddButton) (Some "Bob")
       None None 0 None None None 0 false;
     Interaction "2024-01-01 10:02:00" (Some DeleteButton) None None None
       0 None None None 0 true;
     Interaction "2024-01-01 10:03:00" (Some AddButton) (Some "Carol")
       None None 0 None None None 0 false] in
  keys_ok (disk (runs script_runs (boot false))) ∧
  (ids <$> disk (runs script_runs (boot false)) !! ENTRIES) = Some [1; 3].
Proof.
  intros script_runs.
  destruct (ids_stay_unique script_runs (boot false)) as [_ Hboot].
  split; [apply Hboot|]. vm_compute. reflexivity.
Defined.

(** ** What a run shows *)

Lemma screen_seq {A B} (m : M A) (k : A → M B) (w : world) :
  (∀ a, keeps_screen (k a)) → screen ((m ≫= k) w).2 = screen (m w).2.
Proof.
  intros Hk. unfold mbind, M_bind, bind.
  destruct (m w) as [[e|a] w1]; simpl; [done|apply Hk].
Qed.

Lemma keeps_screen_bind {A B} (m : M A) (k : A → M B) :
  keeps_screen m → (∀ a, keeps_screen (k a)) → keeps_screen (m ≫= k).
Proof. intros Hm Hk w. by rewrite screen_seq, Hm. Qed.

Lemma keeps_screen_ret {A} (a : A) : keeps_screen (mret a).
Proof. by intros w. Qed.

Lemma keeps_screen_number_input lo hi v typed :
  keeps_screen (number_input lo hi v typed).
Proof. intros w. unfold number_input. by case_bool_decide. Qed.

Lemma keeps_screen_get_entry_by_id entry_id :
  keeps_screen (get_entry_by_id entry_id).
Proof.
  intros w. rewrite get_entry_by_id_eq. cbv zeta.
  by destruct (run_statement _ _ _) as [?|[? ?]].
Qed.

Lemma keeps_screen_safe_rerun : keeps_screen safe_rerun.
Proof.
  intros w. unfold safe_rerun, try_except, experimental_rerun.
  by destruct (has_experimental_rerun w).
Qed.

Lemma keeps_screen_update_section (i : interaction) options :
  pressed i ≠ Some SaveButton → keeps_screen (update_section i options).
Proof.
  intros Hp. unfold update_section.
  destruct (next_id _ _) as [sid|]; [|apply keeps_screen_ret].
  apply keeps_screen_bind; [apply keeps_screen_get_entry_by_id|].
  intros [r|]; [|apply keeps_screen_ret].
  apply keeps_screen_bind; [apply keeps_screen_number_input|].
  intros u_age. unfold form_submit_button.
  rewrite bool_decide_false by done. apply keeps_screen_ret.
Qed.

Lemma keeps_screen_delete_section (i : interaction) options :
  pressed i ≠ Some DeleteButton → keeps_screen (delete_section i options).
Proof.
  intros Hp. unfold delete_section, form_submit_button.
  rewrite bool_decide_false by done. apply keeps_screen_ret.
Qed.

Lemma elem_of_frame (rs : list row) (r : row) :
  r ∈ rs → small_age (col_age r) → r ∈ frame rs.
Proof.
  intros Hr Hs. destruct (frame_fmap rs) as (g & -> & Hg).
  apply list_elem_of_fmap. exists r. split; [|done].
  destruct Hg as [->| ->]; [by rewrite as_float64_small|done].
Qed.

Lemma age_or_none_small lo hi v typed :
  0 ≤ lo → hi ≤ 150 → lo ≤ v ≤ hi →
  small_age (age_or_none (default v (sent lo hi typed))).
Proof.
  intros Hlo Hhi Hv. pose proof (sent_in_bounds lo hi v typed Hv) as Hb.
  unfold age_or_none. case_bool_decide; [done|]. intros a [= <-]. lia.
Qed.

(** X10: the add form reports the id that the storage assigned.  A run with
    an add submission whose name is not empty once stripped of whitespace,
    on a table with a rowid left, appends one row: the stripped name, the
    age that the widget gives (null for zero), the stripped email, the next
    rowid and the time of the run; it shows "Added entry (id=N)." with N
    that rowid; and the listing drawn under it in the same run already
    holds the new row. *)
Theorem add_reports_assigned_id (i : interaction) (w : world) (t : table) :
  disk w !! ENTRIES = Some t →
  pressed i = Some AddButton → strip (text_input "" (add_name i)) ≠ "" →
  rowid_left t →
  ∃ new_id,
    new_rowid t = Some new_id ∧
    let new := Row new_id (strip (text_input "" (add_name i)))
                 (age_or_none (default 0 (sent 0 150 (add_age i))))
                 (Some (strip (text_input "" (add_email i))))
                 (Some (at_time i)) in
    let t' := Table (rows t ++ [new]) new_id in
    disk (run i w) = <[ENTRIES := t']> (disk w) ∧
    screen (run i w) =
      screen w ++ [StSuccess ("Added entry (id=" +:+ pretty new_id +:+ ").");
                   StDataframe (frame (select_all t'))] ∧
    new ∈ frame (select_all t').
Proof.
  intros Ht Hp Hname Hleft. destruct (new_rowid_left t Hleft) as [new_id Hid].
  exists new_id. split; [done|]. cbv zeta.
  split; [by apply run_add_disk|].
  set (new := Row new_id _ _ _ _). set (t' := Table (rows t ++ [new]) new_id).
  split.
  - unfold run. rewrite main_started.
    assert (Hadd : ∃ w2, add_section i (started i w) = (inr tt, w2) ∧
              disk w2 !! ENTRIES = Some t' ∧
              screen w2 = screen w ++
                [StSuccess ("Added entry (id=" +:+ pretty new_id +:+ ").")]).
    { rewrite add_section_insert by done.
      erewrite bind_inr; last first.
      { apply (insert_entry_ok _ _ _ _ t new_id); [|done|].
        - rewrite started_disk. by rewrite (ensure_table_some _ t).
        - by apply age_or_none_bindable. }
      eexists. split; [reflexivity|]. rewrite started_eq. simpl.
      split; [apply lookup_insert_eq|done]. }
    destruct Hadd as (w2 & Hadd & Ht2 & Hscreen).
    erewrite bind_inr by exact Hadd.
    rewrite (records_section_rows i w2 t') by (done || by destruct (rows t)).
    rewrite screen_seq; last first.
    { intros _. apply keeps_screen_delete_section. by rewrite Hp. }
    rewrite keeps_screen_update_section by (by rewrite Hp).
    simpl. rewrite Hscreen. by rewrite <- app_assoc.
  - apply elem_of_frame; [|by apply age_or_none_small].
    unfold select_all. rewrite merge_sort_Permutation. simpl.
    apply elem_of_app. right. by left.
Qed.

Lemma add_reports_assigned_id_witness :
  let i := Interaction "2024-01-01 10:00:00" (Some AddButton) (Some " Dan ")
             (Some 0) (Some " d@x.com") 0 None None None 0 false in
  let w := (three_inserts "a" "b" "c" None None None "" "" "" (boot true)).2 in
  ∃ msg listing, screen (run i w) = [StSuccess msg; StDataframe listing] ∧
                 msg = "Added entry (id=4).".
Proof.
  intros i w.
  destruct (add_reports_assigned_id i w
              (Table [Row 1 "a" None (Some "") (Some "");
                      Row 2 "b" None (Some "") (Some "");
                      Row 3 "c" None (Some "") (Some "")] 3))
    as (new_id & Hid & _ & Hscreen & _).
  - reflexivity.
  - reflexivity.
  - vm_compute. discriminate.
  - split; [reflexivity|]. repeat constructor.
  - vm_compute in Hid. injection Hid as <-.
    eexists _, _. split; [exact Hscreen|]. vm_compute. reflexivity.
Defined.

Lemma update_section_idle (i : interaction) options (w : world) (t : table) :
  pressed i ≠ Some SaveButton →
  disk w !! ENTRIES = Some t → Forall age_in_range (rows t) →
  (∀ selected_id,
     next_id (selectbox (fst <$> options) (upd_pick i)) options
       = Some selected_id → is_int64 selected_id = true) →
  ∃ w', update_section i options w = (inr tt, w') ∧
        disk w' = disk w ∧ screen w' = screen w.
Proof.
  intros Hp Ht Hages Hid. unfold update_section.
  destruct (next_id _ _) as [sid|]; [|by exists w].
  erewrite bind_inr; [|by apply (get_entry_by_id_ok _ _ t), Hid].
  destruct (head (select_where_id sid t)) as [r|] eqn:Hr;
    [|eexists; split; [reflexivity|done]].
  assert (Hage : 0 ≤ default 0 (col_age r) ≤ 150).
  { apply head_Some_elem_of in Hr. unfold select_where_id in Hr.
    apply list_elem_of_filter in Hr as [_ Hr].
    rewrite Forall_forall in Hages. specialize (Hages r Hr).
    destruct (col_age r) as [a|] eqn:Ha; simpl; [by apply Hages|lia]. }
  rewrite number_input_bind by done.
  unfold form_submit_button. rewrite bool_decide_false by done.
  eexists; split; [reflexivity|done].
Qed.

Lemma picked_id_int64 (t : table) (k : nat) (selected_id : Z) :
  ids_int64 t →
  (let options := build_options (select_all t) in
   next_id (selectbox (fst <$> options) k) options = Some selected_id) →
  is_int64 selected_id = true.
Proof.
  intros Hids. cbv zeta. rewrite next_id_build_options.
  destruct (select_all t !! k) as [r|] eqn:Hk; [|done]. intros [= <-].
  apply list_elem_of_lookup_2 in Hk. unfold select_all in Hk.
  rewrite merge_sort_Permutation in Hk.
  unfold ids_int64 in Hids. rewrite Forall_forall in Hids. by apply Hids.
Qed.

Lemma frame_in_range (rs : list row) :
  Forall age_in_range rs → frame rs = rs.
Proof.
  intros Hr. apply frame_small. eapply Forall_impl; [exact Hr|].
  intros r Hage a Ha. specialize (Hage a Ha). lia.
Qed.

(** X11: a confirmed delete removes the row that was picked.  On a page that
    draws (the table has rows, with ages the age widget can show and ids as
    the engine holds them, 64-bit integers), a run with a delete submission
    and the confirmation box ticked removes the rows with the id of the
    picked entry of the listing, and no other row; it shows the listing as
    it was before, then "Record deleted.". *)
Theorem confirmed_delete_removes_picked_row (i : interaction) (w : world)
    (t : table) (r : row) :
  disk w !! ENTRIES = Some t → Forall age_in_range (rows t) → ids_int64 t →
  pressed i = Some DeleteButton → del_confirm i = true →
  select_all t !! del_pick i = Some r →
  disk (run i w) =
    <[ENTRIES := Table (delete_rows (Some (col_id r)) (rows t)) (seq t)]>
      (disk w) ∧
  screen (run i w) =
    screen w ++ [StDataframe (select_all t); StSuccess "Record deleted."].
Proof.
  intros Ht Hages Hids Hp Hc Hpick. unfold run.
  assert (Hne : rows t ≠ []).
  { intros Hnil. unfold select_all in Hpick. by rewrite Hnil in Hpick. }
  rewrite (main_records i w t) by (done || by rewrite Hp).
  assert (Hd : disk (listed t (started i w)) = disk w).
  { rewrite listed_disk, started_disk. by apply (ensure_table_some _ t). }
  destruct (update_section_idle i (build_options (select_all t))
              (listed t (started i w)) t)
    as (w3 & Hupd & Hd3 & Hs3);
    [by rewrite Hp|by rewrite Hd|done|
     intros sid; by apply (picked_id_int64 t)|].
  erewrite bind_inr by exact Hupd.
  unfold delete_section, form_submit_button, checkbox.
  rewrite bool_decide_true by done. rewrite Hc. simpl.
  rewrite next_id_build_options, Hpick. simpl.
  assert (Hr : is_int64 (col_id r) = true).
  { apply list_elem_of_lookup_2 in Hpick. unfold select_all in Hpick.
    rewrite merge_sort_Permutation in Hpick.
    unfold ids_int64 in Hids. rewrite Forall_forall in Hids. by apply Hids. }
  assert (Hrun : run_statement (clock w3) (DeleteWhereId (Some (col_id r)))
                   (disk w) =
                 inr (<[ENTRIES :=
                          Table (delete_rows (Some (col_id r)) (rows t))
                            (seq t)]> (disk w), Cursor None [])).
  { rewrite (run_statement_entries _ _ _ t Ht). simpl. by rewrite Hr. }
  split.
  - rewrite disk_seq; last first.
    { intros _. apply keeps_disk_bind; [apply keeps_disk_st_success|].
      intros _. apply keeps_disk_safe_rerun. }
    rewrite delete_entry_eq. cbv zeta. rewrite Hd3, Hd. by rewrite Hrun.
  - unfold mbind, M_bind, bind. rewrite delete_entry_eq. cbv zeta.
    rewrite Hd3, Hd, Hrun. simpl.
    rewrite keeps_screen_safe_rerun. simpl. rewrite Hs3.
    rewrite started_eq. simpl. rewrite <- app_assoc. simpl.
    rewrite frame_in_range; [done|].
    unfold select_all. by rewrite merge_sort_Permutation.
Qed.

Lemma confirmed_delete_removes_picked_row_witness :
  let w := (three_inserts "a" "b" "c" None None None "" "" "" (boot true)).2 in
  let i := Interaction "2024-01-01 10:00:00" (Some DeleteButton) None None
             None 0 None None None 1 true in
  (ids <$> disk (run i w) !! ENTRIES) = Some [1; 3].
Proof.
  intros w i.
  destruct (confirmed_delete_removes_picked_row i w
              (Table [Row 1 "a" None (Some "") (Some "");
                      Row 2 "b" None (Some "") (Some "");
                      Row 3 "c" None (Some "") (Some "")] 3)
              (Row 2 "b" None (Some "") (Some ""))) as [Hdisk _].
  - reflexivity.
  - repeat (constructor; [by intros a|]). constructor.
  - repeat (constructor; [reflexivity|]). constructor.
  - reflexivity.
  - reflexivity.
  - reflexivity.
  - rewrite Hdisk. reflexivity.
Defined.

(** ** Rerun, the empty page, and a page that cannot be drawn *)

(** X12: [safe_rerun] lets no error out and touches neither the file, the
    connections nor the screen.  Where the host has [experimental_rerun] it
    stops the script with the rerun signal, which its [except Exception]
    does not catch, and changes nothing at all; where the host has not, the
    missing attribute is caught, the script goes on, and only the session
    flag "_rerun_toggle" changes: it becomes the negation of what it was
    (false when unset), so that a second call sets it back. *)
Theorem safe_rerun_outcomes (w : world) :
  disk (safe_rerun w).2 = disk w ∧ conns (safe_rerun w).2 = conns w ∧
  trace (safe_rerun w).2 = trace w ∧ screen (safe_rerun w).2 = screen w ∧
  (has_experimental_rerun w = true →
     safe_rerun w = (inl RerunException, w)) ∧
  (has_experimental_rerun w = false →
     (safe_rerun w).1 = inr tt ∧
     session_state (safe_rerun w).2 !! "_rerun_toggle" =
       Some (negb (default false (session_state w !! "_rerun_toggle"))) ∧
     (∀ k, k ≠ "_rerun_toggle" →
        session_state (safe_rerun w).2 !! k = session_state w !! k) ∧
     session_state (safe_rerun (safe_rerun w).2).2 !! "_rerun_toggle" =
       Some (default false (session_state w !! "_rerun_toggle"))).
Proof.
  unfold safe_rerun, try_except, experimental_rerun.
  destruct (has_experimental_rerun w) eqn:Hhost; simpl.
  - by repeat split.
  - rewrite Hhost. simpl. repeat split; try done.
    + unfold mbind, M_bind, bind, session_get, session_set. simpl.
      apply lookup_insert_eq.
    + intros k Hk. unfold mbind, M_bind, bind, session_get, session_set.
      simpl. by rewrite lookup_insert_ne.
    + unfold mbind, M_bind, bind, session_get, session_set. simpl.
      rewrite !lookup_insert_eq. simpl. by rewrite negb_involutive.
Qed.

Lemma safe_rerun_outcomes_witness :
  safe_rerun (boot true) = (inl RerunException, boot true) ∧
  (safe_rerun (boot false)).1 = inr tt ∧
  session_state (safe_rerun (boot false)).2 !! "_rerun_toggle" = Some true.
Proof.
  split.
  - apply (safe_rerun_outcomes (boot true)). reflexivity.
  - destruct (safe_rerun_outcomes (boot false))
      as (_ & _ & _ & _ & _ & Hfallback).
    destruct (Hfallback eq_refl) as (Hres & Hflag & _).
    split; [exact Hres|exact Hflag].
Defined.

(** X13: the page of an empty table.  When the table has no row (or is not
    there yet) and no add submission is made, the run ends normally, shows
    "No records found. Add one above." and nothing else, and draws neither
    the update form nor the delete form: its only driver calls are those of
    [create_table] and [view_all], whatever button started the run. *)
Theorem empty_table_draws_no_form (i : interaction) (w : world) :
  pressed i ≠ Some AddButton →
  (∀ t, disk w !! ENTRIES = Some t → rows t = []) →
  let h1 := next_handle w in
  let h2 := next_handle (started i w) in
  (main i (set_clock (at_time i) w)).1 = inr tt ∧
  disk (run i w) = ensure_table (disk w) ∧
  screen (run i w) = screen w ++ [StInfo "No records found. Add one above."] ∧
  trace (run i w) =
    trace w ++ [Connect h1; Execute h1 CreateTableIfNotExists;
                Commit h1; Commit h1;
                Connect h2; Execute h2 SelectAll; Commit h2].
Proof.
  intros Hp Hempty h1 h2. unfold run. rewrite main_started.
  erewrite bind_inr by (by apply add_section_idle).
  assert (Ht0 : ∃ t0, disk (started i w) !! ENTRIES = Some t0 ∧ rows t0 = []).
  { rewrite started_disk. unfold ensure_table.
    destruct (disk w !! ENTRIES) as [t|] eqn:Ht.
    - exists t. split; [done|]. by apply Hempty.
    - exists empty_table. split; [apply lookup_insert_eq|done]. }
  destruct Ht0 as (t0 & Ht0 & Hrows).
  rewrite (records_section_empty i _ t0 Ht0 Hrows). simpl.
  rewrite started_disk. repeat split; try done.
  all: subst h1 h2; rewrite ?started_eq; simpl; by rewrite <- ?app_assoc.
Qed.

Lemma empty_table_draws_no_form_witness :
  let i := Interaction "2024-01-01 10:00:00" (Some DeleteButton) None None
             None 0 None None None 0 true in
  screen (run i (boot true)) = [StInfo "No records found. Add one above."] ∧
  disk (run i (boot true)) = {[ENTRIES := empty_table]}.
Proof.
  intros i.
  destruct (empty_table_draws_no_form i (boot true))
    as (_ & Hdisk & Hscreen & _).
  - discriminate.
  - intros t Ht. discriminate Ht.
  - split; [exact Hscreen|]. rewrite Hdisk. reflexivity.
Defined.

(** X14: a stored age that the age widget cannot show stops the page.  When
    the row under the update picker (its id one that the engine holds, a
    64-bit integer) has an age outside 0..150 (which no form can store, but
    a direct [insert_entry] or [update_entry] can), the widget refuses to
    draw: the run ends with the host's error before the update form and
    before the delete form, and the file is as it was, also for a delete
    submission with the confirmation box ticked. *)
Theorem stored_age_out_of_bounds_stops_run (i : interaction) (w : world)
    (t : table) selected_id (r : row) :
  disk w !! ENTRIES = Some t → pressed i ≠ Some AddButton → rows t ≠ [] →
  next_id (selectbox (fst <$> build_options (select_all t)) (upd_pick i))
          (build_options (select_all t)) = Some selected_id →
  is_int64 selected_id = true →
  head (select_where_id selected_id t) = Some r →
  ¬ (0 ≤ default 0 (col_age r) ≤ 150) →
  (main i (set_clock (at_time i) w)).1 = inl StreamlitAPIException ∧
  disk (run i w) = disk w ∧
  Forall (λ ev, writes ev = false)
    (drop (length (trace w)) (trace (run i w))).
Proof.
  intros Ht Hp Hne Hsel Hid Hrow Hage. unfold run.
  rewrite (main_records i w t) by done.
  assert (Hd : disk (listed t (started i w)) !! ENTRIES = Some t).
  { rewrite listed_disk, started_disk. by rewrite (ensure_table_some _ t). }
  assert (Hupd : update_section i (build_options (select_all t))
                   (listed t (started i w))
                 = (inl StreamlitAPIException,
                    fetched_row selected_id (listed t (started i w)))).
  { unfold update_section. rewrite Hsel.
    erewrite bind_inr; [|by apply (get_entry_by_id_ok _ _ t)].
    rewrite Hrow. cbv beta iota. unfold mbind, M_bind, bind, number_input.
    by rewrite bool_decide_false. }
  rewrite (bind_inl _ _ _ _ _ Hupd). simpl.
  split; [done|]. rewrite started_eq. simpl.
  split; [by apply (ensure_table_some _ t)|].
  rewrite <- !app_assoc. rewrite drop_app_length. by repeat constructor.
Qed.

Lemma stored_age_out_of_bounds_stops_run_witness :
  let w := (insert_entry "Old" (Some 200) ""
              (create_table (boot true)).2).2 in
  let i := Interaction "2024-01-01 10:00:00" (Some DeleteButton) None None
             None 0 None None None 0 true in
  (main i (set_clock (at_time i) w)).1 = inl StreamlitAPIException ∧
  disk (run i w) = disk w.
Proof.
  intros w i.
  destruct (stored_age_out_of_bounds_stops_run i w
              (Table [Row 1 "Old" (Some 200) (Some "") (Some "")] 1) 1
              (Row 1 "Old" (Some 200) (Some "") (Some "")))
    as (Hres & Hdisk & _).
  - reflexivity.
  - discriminate.
  - discriminate.
  - vm_compute. reflexivity.
  - reflexivity.
  - reflexivity.
  - simpl. lia.
  - split; [exact Hres|exact Hdisk].
Defined.
